(** * NickCast: a shallow embedding of the relay server and its collaborators

    The development follows the Go sources:
    - [internal/server/server.go]: the ring buffer of recent audio, the
      listener registry, the stream handler and the listen handler;
    - [internal/NickServAuth]: the client of the NickServ HTTP API;
    - [config/config.go]: the loader of [nickcast.conf].

    Byte contents are [list byte]; Go [int] lengths are [Z]; Go strings
    are [string].  The slices that [broadcast] puts on the listeners'
    channels are views of the streamer's read buffer, not copies.
    Goroutines are threads of an interleaving semantics whose atomic steps
    are the critical sections and the atomic operations of the source;
    library calls (base64, JSON, HTTP, the file system) are parameters. *)

From Stdlib Require Import ZArith Lia String Ascii List Bool.
From Stdlib Require Import Strings.Byte.
From stdpp Require Import base tactics option list gmap sets.

Local Open Scope Z_scope.

(** ** The ring buffer of recent audio ([broadcast], first half) *)

Module Ring.

(** [maxRingBufferSize = 128 * 1024]. *)
Definition maxRingBufferSize : Z := 128 * 1024.

(** [len(b)] as a Go [int]. *)
Definition len {A} (b : list A) : Z := Z.of_nat (length b).

(** [b[i:]] for [0 <= i <= len(b)]. *)
Definition slice_from {A} (b : list A) (i : Z) : list A := drop (Z.to_nat i) b.

(** The critical section of [broadcast] guarded by [ringBufferMu]: the
    contents of [ringBuffer] after the call, from its contents before and
    the chunk [data].  [cap] stands for [maxRingBufferSize]. *)
Definition ringWrite (cap : Z) (ringBuffer data : list byte) : list byte :=
  let ringBuffer :=
    if len ringBuffer + len data >? cap then
      let copyLen := cap - len data in
      let copyLen := if copyLen <? 0 then 0 else copyLen in
      let temp :=
        if len ringBuffer >? copyLen
        then slice_from ringBuffer (len ringBuffer - copyLen)
        else ringBuffer in
      (* ringBuffer.Reset(); ringBuffer.Write(temp) *)
      temp
    else ringBuffer in
  (* ringBuffer.Write(data) *)
  ringBuffer ++ data.

(** The buffer after a sequence of [broadcast] calls, starting from the
    empty buffer that [resetStreamState] installs. *)
Definition ringWrites (cap : Z) (chunks : list (list byte)) : list byte :=
  foldl (ringWrite cap) [] chunks.

(** The last [n] bytes of [l] (all of [l] when it is shorter). *)
Definition suffix {A} (n : Z) (l : list A) : list A :=
  drop (length l - Z.to_nat n)%nat l.

(** The same with the count on [nat]. *)
Definition lastn {A} (n : nat) (l : list A) : list A :=
  drop (length l - n)%nat l.

(** Number of bytes ever appended. *)
Definition total (chunks : list (list byte)) : Z := len (concat chunks).

(** Length of the last chunk appended ([0] when there is none). *)
Definition last_len (chunks : list (list byte)) : Z :=
  match last chunks with Some c => len c | None => 0 end.

(** A chunk of 128 KB + 1 byte, all zero. *)
Definition big_chunk : list byte := replicate (Z.to_nat 131073) x00.

End Ring.

(** ** The functions of Go's [strings] package that the sources call *)

Module Strings.
Local Open Scope string_scope.

(** [strings.Cut(s, sep)] for a one-byte separator: the text before the
    first [sep] and the text after it. *)
Fixpoint Cut (s : string) (sep : ascii) : option (string * string) :=
  match s with
  | EmptyString => None
  | String c rest =>
      if Ascii.eqb c sep then Some (EmptyString, rest)
      else match Cut rest sep with
           | Some (before, after) => Some (String c before, after)
           | None => None
           end
  end.

(** [strings.SplitN(s, sep, 2)] for a one-byte separator. *)
Definition SplitN2 (s : string) (sep : ascii) : list string :=
  match Cut s sep with
  | Some (before, after) => [before; after]
  | None => [s]
  end.

(** [strings.HasPrefix(s, prefix)]. *)
Definition HasPrefix (s prefix : string) : bool := String.prefix prefix s.

(** [strings.Contains(s, string(c))]. *)
Fixpoint ContainsByte (s : string) (c : ascii) : bool :=
  match s with
  | EmptyString => false
  | String d rest => Ascii.eqb d c || ContainsByte rest c
  end.

(** The UTF-8 encodings of the code points with [unicode.IsSpace]. *)
Definition spaces : list string :=
  List.map string_of_list_ascii
    (List.map (List.map ascii_of_nat)
       [ [9]; [10]; [11]; [12]; [13]; [32];
         [194; 133]; [194; 160]; [225; 154; 128];
         [226; 128; 128]; [226; 128; 129]; [226; 128; 130]; [226; 128; 131];
         [226; 128; 132]; [226; 128; 133]; [226; 128; 134]; [226; 128; 135];
         [226; 128; 136]; [226; 128; 137]; [226; 128; 138];
         [226; 128; 168]; [226; 128; 169]; [226; 128; 175];
         [226; 129; 159]; [227; 128; 128] ]%nat).

(** [s] without [prefix], when it starts with it. *)
Fixpoint strip_prefix (prefix s : string) : option string :=
  match prefix, s with
  | EmptyString, _ => Some s
  | String a p, String b r => if Ascii.eqb a b then strip_prefix p r else None
  | String _ _, EmptyString => None
  end.

(** [s] without one leading space, when it starts with one. *)
Definition strip_space (s : string) : option string :=
  list_find (fun o => bool_decide (is_Some o))
    (List.map (fun sp => strip_prefix sp s) spaces) ≫= (fun p => p.2).

(** [strings.TrimLeftFunc(s, unicode.IsSpace)]; a space has at most three
    bytes, so [length s] rounds are enough. *)
Fixpoint trim_left (fuel : nat) (s : string) : string :=
  match fuel with
  | O => s
  | S fuel =>
      match strip_space s with
      | Some rest => trim_left fuel rest
      | None => s
      end
  end.

Definition rev_string (s : string) : string :=
  string_of_list_ascii (List.rev (list_ascii_of_string s)).

(** Trailing spaces are leading spaces of the reversed string, with the
    bytes of each space reversed. *)
Definition strip_space_rev (s : string) : option string :=
  list_find (fun o => bool_decide (is_Some o))
    (List.map (fun sp => strip_prefix (rev_string sp) s) spaces)
    ≫= (fun p => p.2).

Fixpoint trim_left_rev (fuel : nat) (s : string) : string :=
  match fuel with
  | O => s
  | S fuel =>
      match strip_space_rev s with
      | Some rest => trim_left_rev fuel rest
      | None => s
      end
  end.

(** [strings.TrimSpace(s)]. *)
Definition TrimSpace (s : string) : string :=
  let s := trim_left (String.length s) s in
  rev_string (trim_left_rev (String.length s) (rev_string s)).

End Strings.

(** ** The NickServ client ([internal/NickServAuth]) *)

Module NickServAuth.
Local Open Scope string_scope.

Record AuthClient := {
  APIURL : string;
  Token : string;
  UserAgent : string   (* [Client], the HTTP client with its timeout, is [Do] below *)
}.

Definition NewAuthClient (apiURL token : string) : AuthClient :=
  {| APIURL := apiURL; Token := token; UserAgent := "NickStream/1.0" |}.

Record AuthRequest := { AccountName : string; Passphrase : string }.

Record AuthResponse := { Success : bool; Message : string }.

(** An [*http.Request]: method, URL, body and the headers set on it, the
    latest first. *)
Record Request := {
  Method : string;
  URL : string;
  ReqBody : string;
  Header : list (string * string)
}.

Definition Header_Set (req : Request) (key value : string) : Request :=
  {| Method := Method req; URL := URL req; ReqBody := ReqBody req;
     Header := (key, value) :: Header req |}.

Record Response := { StatusCode : Z; Body : string }.

Definition StatusOK : Z := 200.

(** The errors [Authenticate] returns, one per [fmt.Errorf] of the source;
    [cause] is the text of the wrapped error. *)
Inductive error :=
| ErrMarshal (cause : string)      (* "failed to marshal request: %w" *)
| ErrCreate (cause : string)       (* "failed to create request: %w" *)
| ErrRequest (cause : string)      (* "request to NickServ API failed: %w" *)
| ErrStatus (code : Z)             (* "NickServ API returned status %d" *)
| ErrDecode (cause : string)       (* "failed to decode NickServ response: %w" *)
| ErrAuth (message : string).      (* "NickServ authentication failed: %s" *)

Section Client.
(** The library calls of [Authenticate]; [inr cause] is a non-nil error. *)
Variable Marshal : AuthRequest -> string + string.             (* json.Marshal *)
Variable NewRequest : string -> string -> string -> Request + string.
                                                               (* http.NewRequest *)
Variable Do : Request -> Response + string.                    (* a.Client.Do *)
Variable Decode : string -> AuthResponse + string.  (* json.NewDecoder(_).Decode *)

Definition Authenticate (a : AuthClient) (accountName passphrase : string)
  : bool * option error :=
  let reqBody := {| AccountName := accountName; Passphrase := passphrase |} in
  match Marshal reqBody with
  | inr err => (false, Some (ErrMarshal err))
  | inl jsonData =>
  match NewRequest "POST" (APIURL a) jsonData with
  | inr err => (false, Some (ErrCreate err))
  | inl req =>
  let req := Header_Set req "Authorization" ("Bearer " ++ Token a) in
  let req := Header_Set req "Content-Type" "application/json" in
  let req := Header_Set req "User-Agent" (UserAgent a) in
  match Do req with
  | inr err => (false, Some (ErrRequest err))
  | inl resp =>
  if negb (StatusCode resp =? StatusOK)%Z then
    (false, Some (ErrStatus (StatusCode resp)))
  else
  match Decode (Body resp) with
  | inr err => (false, Some (ErrDecode err))
  | inl authResp =>
  if negb (Success authResp) && negb (Message authResp =? "") then
    (false, Some (ErrAuth (Message authResp)))
  else
    (Success authResp, None)
  end end end end.

(** The request that [Authenticate] hands to [Do], when it gets that far. *)
Definition sent_request (a : AuthClient) (accountName passphrase : string)
  : option Request :=
  match Marshal {| AccountName := accountName; Passphrase := passphrase |} with
  | inr _ => None
  | inl jsonData =>
  match NewRequest "POST" (APIURL a) jsonData with
  | inr _ => None
  | inl req =>
      Some (Header_Set
              (Header_Set
                 (Header_Set req "Authorization" ("Bearer " ++ Token a))
                 "Content-Type" "application/json")
              "User-Agent" (UserAgent a))
  end end.

End Client.

(** A sample environment: requests are always built, and the server
    answers 200 with [success: false] and no message. *)
Definition Marshal0 (r : AuthRequest) : string + string := inl (AccountName r).
Definition NewRequest0 (m u b : string) : Request + string :=
  inl {| Method := m; URL := u; ReqBody := b; Header := [] |}.
Definition Do0 (r : Request) : Response + string :=
  inl {| StatusCode := 200; Body := "{}" |}.
Definition Decode0 (b : string) : AuthResponse + string :=
  inl {| Success := false; Message := "" |}.

End NickServAuth.

(** ** The configuration loader ([config/config.go]) *)

Module Config.
Import Strings.
Local Open Scope string_scope.

Record Config := {
  ListenAddress : string;
  AuthURL : string;
  APIToken : string
}.

(** [Config{}]. *)
Definition zero : Config :=
  {| ListenAddress := ""; AuthURL := ""; APIToken := "" |}.

(** What the file system answers [LoadConfig]: [os.Executable] fails, or
    [os.Open] fails, or the scanner yields [lines] and then stops at the
    end of the file ([scanErr = None]) or on an error. *)
Inductive File :=
| ExecutableFails (cause : string)
| OpenFails (configPath cause : string)
| Scanned (lines : list string) (scanErr : option string).

Inductive error :=
| ErrExecutable (cause : string)   (* "error finding executable path: %w" *)
| ErrOpen (configPath cause : string) (* "error opening config file (%s): %w" *)
| ErrRead (cause : string)         (* "error reading config file: %w" *)
| ErrAuthURL                       (* "auth_url must be specified in nickcast.conf" *)
| ErrAPIToken.                     (* "api_token must be specified in nickcast.conf" *)

(** One round of the [for scanner.Scan()] loop, on [scanner.Text()]. *)
Definition scanLine (cfg : Config) (text : string) : Config :=
  let line := TrimSpace text in
  if (line =? "") || HasPrefix line "#" then cfg
  else
    match SplitN2 line "="%char with
    | [part0; part1] =>
        let key := TrimSpace part0 in
        let value := TrimSpace part1 in
        if key =? "listen" then
          {| ListenAddress := value; AuthURL := AuthURL cfg;
             APIToken := APIToken cfg |}
        else if key =? "auth_url" then
          {| ListenAddress := ListenAddress cfg; AuthURL := value;
             APIToken := APIToken cfg |}
        else if key =? "api_token" then
          {| ListenAddress := ListenAddress cfg; AuthURL := AuthURL cfg;
             APIToken := value |}
        else cfg
    | _ => cfg
    end.

(** The whole loop, from [cfg := Config{}]. *)
Definition scanLines (lines : list string) : Config :=
  foldl scanLine zero lines.

(** [LoadConfig]: the new value of the global [AppConfig] and the error
    returned ([None] is [nil]). *)
Definition LoadConfig (file : File) (AppConfig : Config)
  : Config * option error :=
  match file with
  | ExecutableFails err => (AppConfig, Some (ErrExecutable err))
  | OpenFails configPath err => (AppConfig, Some (ErrOpen configPath err))
  | Scanned lines scanErr =>
      let cfg := scanLines lines in
      match scanErr with
      | Some err => (AppConfig, Some (ErrRead err))
      | None =>
          let cfg :=
            if ListenAddress cfg =? "" then
              {| ListenAddress := ":8000"; AuthURL := AuthURL cfg;
                 APIToken := APIToken cfg |}
            else cfg in
          if AuthURL cfg =? "" then (AppConfig, Some ErrAuthURL)
          else if APIToken cfg =? "" then (AppConfig, Some ErrAPIToken)
          else (cfg, None)
      end
  end.

(** The file cannot be read. *)
Definition unreadable (file : File) : Prop :=
  match file with
  | Scanned _ None => False
  | _ => True
  end.

(** The configuration parsed from the lines the scanner yielded. *)
Definition parsed (file : File) : Config :=
  match file with
  | Scanned lines _ => scanLines lines
  | _ => zero
  end.

End Config.

(** ** The relay server ([internal/server/server.go]) *)

Module Server.
Import Strings.
Local Open Scope string_scope.

(** *** Credentials of the streamer *)

(** What [streamHandler] reads of its [*http.Request]; [Header.Get] and
    [Query().Get] give [""] for a missing key. *)
Record Request := {
  Authorization : string;      (* r.Header.Get("Authorization") *)
  XSourcePassword : string;    (* r.Header.Get("X-Source-Password") *)
  QueryPassword : string       (* r.URL.Query().Get("password") *)
}.

(** [s[n:]]. *)
Definition string_from (s : string) (n : nat) : string :=
  String.substring n (String.length s - n)%nat s.

Section Credentials.
(** [base64.StdEncoding.DecodeString]; [None] is a non-nil error. *)
Variable DecodeString : string -> option string.

Definition parseBasicAuth (r : Request) : string * string * bool :=
  let auth := Authorization r in
  if (auth =? "") || negb (HasPrefix auth "Basic ") then ("", "", false)
  else
    match DecodeString (string_from auth (String.length "Basic ")) with
    | None => ("", "", false)
    | Some payload =>
        match SplitN2 payload ":"%char with
        | [pair0; pair1] => (pair0, pair1, true)
        | _ => ("", "", false)
        end
    end.

(** Lines 80-98 of [streamHandler]: [user], [pass] and [ok] where the
    handler either answers 401 ([ok = false]) or goes on to authenticate. *)
Definition credentials (r : Request) : string * string * bool :=
  let '(user, pass, ok) := parseBasicAuth r in
  if negb ok then
    let sourcePass := XSourcePassword r in
    let sourcePass :=
      if sourcePass =? "" then QueryPassword r else sourcePass in
    if negb (sourcePass =? "") then
      match SplitN2 sourcePass ":"%char with
      | [parts0; parts1] => (parts0, parts1, true)
      | _ => (user, pass, ok)
      end
    else (user, pass, ok)
  else (user, pass, ok).

(** The value that the fallback of [streamHandler] splits. *)
Definition sourcePass (r : Request) : string :=
  if XSourcePassword r =? "" then QueryPassword r else XSourcePassword r.

End Credentials.

(** *** Shared state *)

Local Open Scope nat_scope.

(** A [[]byte] that a streamer hands to [broadcast]: [buf[:n]], a view of
    the array [buf] that goroutine [sl_array] of [streamHandler] made and
    reads into again and again. *)
Record slice := { sl_array : nat; sl_len : nat }.

(** A listener's [chan []byte]: the pending slices, oldest first, and
    whether [close] was called. *)
Record chan := { queue : list slice; closed : bool }.

(** [make(chan []byte, 100)]. *)
Definition chanCap : nat := 100.
Definition make_chan : chan := {| queue := []; closed := false |}.

(** [select { case ch <- data: default: }].  Sending on a closed channel
    panics in Go; [broadcast] only sends to registered channels, and those
    are open in every reachable state ([registered_open_run]). *)
Definition trySend (data : slice) (c : chan) : chan :=
  if closed c then c
  else if length (queue c) <? chanCap
       then {| queue := queue c ++ [data]; closed := false |}
       else c.

(** [close(ch)]. *)
Definition close (c : chan) : chan := {| queue := queue c; closed := true |}.

(** The package-level variables.  Channels, gates ([chan struct{}]) and
    contexts live in heaps indexed by the order of their creation; a gate
    or context is [true] once it is closed or cancelled.

    [ringBuffer] points to a [bytes.Buffer], a slice of an array that
    [Write] and [Reset] change in place: [ringBuffer] is what the buffer
    holds, [ringTail] the bytes of its array behind that (left there by a
    [Reset]), and [ringOld] the arrays of the buffers that [ringBuffer]
    pointed to before, which nothing writes to any more.  The array of
    the buffer in use is number [length ringOld]. *)
Record Globals := {
  listeners : gset nat;          (* the keys of [listeners] *)
  chans : list chan;             (* heap of listener channels *)
  firstData : nat;
  gates : list bool;             (* heap of [firstData] channels *)
  firstDataOnce : bool;          (* the [sync.Once] has run *)
  streamActive : bool;
  streamCancelFn : option nat;   (* the context it cancels; [None] is nil *)
  streamCtx : nat;
  ctxs : list bool;              (* heap of contexts *)
  ringBuffer : list byte;        (* [ringBuffer.Bytes()] *)
  ringTail : list byte;
  ringOld : list (list byte)
}.

Definition set_listeners (L : gset nat) (cs : list chan) (g : Globals) :=
  {| listeners := L; chans := cs; firstData := firstData g;
     gates := gates g; firstDataOnce := firstDataOnce g;
     streamActive := streamActive g; streamCancelFn := streamCancelFn g;
     streamCtx := streamCtx g; ctxs := ctxs g; ringBuffer := ringBuffer g;
     ringTail := ringTail g; ringOld := ringOld g |}.

Definition set_firstData (fd : nat) (gs : list bool) (g : Globals) :=
  {| listeners := listeners g; chans := chans g; firstData := fd;
     gates := gs; firstDataOnce := firstDataOnce g;
     streamActive := streamActive g; streamCancelFn := streamCancelFn g;
     streamCtx := streamCtx g; ctxs := ctxs g; ringBuffer := ringBuffer g;
     ringTail := ringTail g; ringOld := ringOld g |}.

Definition set_firstDataOnce (b : bool) (g : Globals) :=
  {| listeners := listeners g; chans := chans g; firstData := firstData g;
     gates := gates g; firstDataOnce := b;
     streamActive := streamActive g; streamCancelFn := streamCancelFn g;
     streamCtx := streamCtx g; ctxs := ctxs g; ringBuffer := ringBuffer g;
     ringTail := ringTail g; ringOld := ringOld g |}.

Definition set_streamActive (b : bool) (g : Globals) :=
  {| listeners := listeners g; chans := chans g; firstData := firstData g;
     gates := gates g; firstDataOnce := firstDataOnce g;
     streamActive := b; streamCancelFn := streamCancelFn g;
     streamCtx := streamCtx g; ctxs := ctxs g; ringBuffer := ringBuffer g;
     ringTail := ringTail g; ringOld := ringOld g |}.

Definition set_ctx (fn : option nat) (c : nat) (cs : list bool) (g : Globals) :=
  {| listeners := listeners g; chans := chans g; firstData := firstData g;
     gates := gates g; firstDataOnce := firstDataOnce g;
     streamActive := streamActive g; streamCancelFn := fn;
     streamCtx := c; ctxs := cs; ringBuffer := ringBuffer g;
     ringTail := ringTail g; ringOld := ringOld g |}.

Definition set_ring (b tail : list byte) (old : list (list byte))
    (g : Globals) :=
  {| listeners := listeners g; chans := chans g; firstData := firstData g;
     gates := gates g; firstDataOnce := firstDataOnce g;
     streamActive := streamActive g; streamCancelFn := streamCancelFn g;
     streamCtx := streamCtx g; ctxs := ctxs g; ringBuffer := b;
     ringTail := tail; ringOld := old |}.

(** The array of the buffer in use, as far as it was ever written. *)
Definition ringArray (g : Globals) : list byte := ringBuffer g ++ ringTail g.

(** The bytes now in array [a] of the ring buffers. *)
Definition ringBytes (g : Globals) (a : nat) : list byte :=
  default (ringArray g) (ringOld g !! a).

(** Line 59, [bytes.NewBuffer(make([]byte, 0, maxRingBufferSize))]: a
    buffer with a new array.  The array of the old buffer stays as it is,
    for those who hold a slice of it.  (Before [Start] there is no buffer:
    the array that is set aside then is empty, and nothing holds a slice
    of it.) *)
Definition newRingBuffer (g : Globals) : Globals :=
  set_ring [] [] (ringOld g ++ [ringArray g]) g.

(** [<-gate] or [<-ctx.Done()] can proceed. *)
Definition fired (heap : list bool) (i : nat) : bool := default false (heap !! i).

(** [streamCancelFn()], and the guarded call of lines 65-67 and 113-115. *)
Definition cancel (fn : option nat) (cs : list bool) : list bool :=
  match fn with
  | Some c => <[c := true]> cs
  | None => cs
  end.

(** Lines 64-69 and 112-117: cancel the previous context, make a new one. *)
Definition newStreamCtx (g : Globals) : Globals :=
  let cs := cancel (streamCancelFn g) (ctxs g) in
  set_ctx (Some (length cs)) (length cs) (cs ++ [false]) g.

(** The second half of [broadcast], under [listenersMu]. *)
Definition fanout (data : slice) (g : Globals) : Globals :=
  set_listeners (listeners g)
    (foldr (fun ch cs => alter (trySend data) ch cs) (chans g)
       (elements (listeners g))) g.

(** The first half of [broadcast], under [ringBufferMu].  [temp] is an
    array of its own, and [Reset] and [Write] work on the array of the
    buffer: when the new contents fit its [maxRingBufferSize] bytes they
    are written over the start of it, and what lay behind stays.  When
    they do not fit (a chunk of more than [maxRingBufferSize] bytes, which
    [streamHandler] never passes: [ring_ok_run]), [Write] moves the buffer
    to a new array; how large that array is made is the library's
    choice, and every such [Write] is taken to move the buffer.

    The critical section is one step.  A [w.Write] of a slice of the
    array holds no lock and can also run while the section is under way,
    when the array is rewritten in part; the runs below have the write
    before the section or after it. *)
Definition ringAppend (data : list byte) (g : Globals) : Globals :=
  let new := Ring.ringWrite Ring.maxRingBufferSize (ringBuffer g) data in
  if (Ring.len new <=? Ring.maxRingBufferSize)%Z
  then set_ring new (drop (length new) (ringArray g)) (ringOld g) g
  else set_ring new [] (ringOld g ++ [ringArray g]) g.

Definition registerListener (ch : nat) (g : Globals) : Globals :=
  set_listeners ({[ch]} ∪ listeners g) (chans g) g.

Definition unregisterListener (ch : nat) (g : Globals) : Globals :=
  set_listeners (listeners g ∖ {[ch]}) (chans g) g.

Definition clearListeners (g : Globals) : Globals :=
  set_listeners ∅
    (foldr (fun ch cs => alter close ch cs) (chans g)
       (elements (listeners g))) g.

(** The variables before [Start]: nil channels and contexts, no buffer. *)
Definition zero : Globals :=
  {| listeners := ∅; chans := []; firstData := 0; gates := [];
     firstDataOnce := false; streamActive := false; streamCancelFn := None;
     streamCtx := 0; ctxs := []; ringBuffer := []; ringTail := [];
     ringOld := [] |}.

(** [resetStreamState], run to its end without interruption. *)
Definition resetStreamState (g : Globals) : Globals :=
  let g := set_firstDataOnce false g in
  let g := set_firstData (length (gates g)) (gates g ++ [false]) g in
  let g := newRingBuffer g in
  newStreamCtx g.

(** *** Goroutines *)

(** Where a goroutine running [streamHandler] stands; each point is one
    atomic operation or one critical section of the source. *)
Inductive spc :=
| S_cas                          (* line 74: streamActive.CompareAndSwap *)
| S_auth                         (* lines 80-107: credentials, Authenticate *)
| S_begin                        (* lines 112-117 and 128 *)
| S_read                         (* line 130: r.Body.Read(buf) *)
| S_once (n : nat) (err : bool)  (* lines 132-135: firstDataOnce.Do *)
| S_ring (n : nat) (err : bool)  (* lines 220-241 of broadcast *)
| S_fanout (n : nat) (err : bool) (* lines 243-254 of broadcast *)
| S_store                        (* deferred, line 122 *)
| S_cancel                       (* deferred, line 123 *)
| S_clear                        (* deferred, line 124: clearListeners *)
| S_resetOnce                    (* resetStreamState, line 55 *)
| S_resetGate                    (* resetStreamState, line 56 *)
| S_resetRing                    (* resetStreamState, lines 58-60 *)
| S_resetCtx                     (* resetStreamState, lines 64-69 *)
| S_done.

Record streamer := {
  s_pc : spc;
  s_req : Request;
  s_buf : list byte;                 (* buf *)
  s_error : option (string * Z)      (* the arguments of http.Error *)
}.

Definition s_goto (pc : spc) (st : streamer) : streamer :=
  {| s_pc := pc; s_req := s_req st; s_buf := s_buf st;
     s_error := s_error st |}.

Definition s_set_buf (buf : list byte) (st : streamer) : streamer :=
  {| s_pc := s_pc st; s_req := s_req st; s_buf := buf;
     s_error := s_error st |}.

(** [http.Error(w, msg, code); return]. *)
Definition s_fail (msg : string) (code : Z) (st : streamer) : streamer :=
  {| s_pc := S_done; s_req := s_req st; s_buf := s_buf st;
     s_error := Some (msg, code) |}.

Definition StatusConflict : Z := 409.
Definition StatusUnauthorized : Z := 401.
Definition StatusServiceUnavailable : Z := 503.

(** The case a [select] commits to. *)
Inductive case :=
| CaseData      (* <-firstData, or data := <-ch *)
| CaseClient    (* <-r.Context().Done() *)
| CaseStream.   (* <-currentStreamCtx.Done() *)

(** Where a goroutine running [listenHandler] stands. *)
Inductive lpc :=
| L_capture             (* lines 147-149 *)
| L_enter               (* line 152: the select evaluates [firstData] *)
| L_wait (gate : nat)   (* lines 152-164: blocked in the select *)
| L_active              (* line 167 *)
| L_register            (* lines 173-179 *)
| L_snapshot            (* lines 182-186: bufferedData := ringBuffer.Bytes() *)
| L_buffered (a n : nat) (* lines 187-195: w.Write(bufferedData), where
                            bufferedData is the first n bytes of array a *)
| L_loop                (* lines 198-200 and 208-214: the select *)
| L_write (data : slice) (* lines 201-207: w.Write(data) *)
| L_unregister          (* deferred, line 179 *)
| L_done.

Record listener := {
  l_pc : lpc;
  l_ctx : nat;                     (* currentStreamCtx *)
  l_ch : nat;                      (* ch *)
  l_error : option (string * Z);   (* the arguments of http.Error *)
  l_out : list byte                (* what w.Write has written *)
}.

Definition l_goto (pc : lpc) (l : listener) : listener :=
  {| l_pc := pc; l_ctx := l_ctx l; l_ch := l_ch l; l_error := l_error l;
     l_out := l_out l |}.

Definition l_set_ctx (c : nat) (l : listener) : listener :=
  {| l_pc := l_pc l; l_ctx := c; l_ch := l_ch l; l_error := l_error l;
     l_out := l_out l |}.

Definition l_set_ch (ch : nat) (l : listener) : listener :=
  {| l_pc := l_pc l; l_ctx := l_ctx l; l_ch := ch; l_error := l_error l;
     l_out := l_out l |}.

(** [w.Write(data)] without an error. *)
Definition l_write (data : list byte) (l : listener) : listener :=
  {| l_pc := l_pc l; l_ctx := l_ctx l; l_ch := l_ch l; l_error := l_error l;
     l_out := l_out l ++ data |}.

Definition l_fail (msg : string) (code : Z) (l : listener) : listener :=
  {| l_pc := L_done; l_ctx := l_ctx l; l_ch := l_ch l;
     l_error := Some (msg, code); l_out := l_out l |}.

Section Goroutines.
Variable DecodeString : string -> option string.
(** [NickServAuth.NewAuthClient(AuthURL, APIToken).Authenticate]. *)
Variable Authenticate : string -> string -> bool * option NickServAuth.error.

(** One step of goroutine [i] of [streamHandler].  [bytes] and [err] are
    what [r.Body.Read(buf)] delivers when the step is the read: the bytes
    it stores at the start of [buf], and whether it reports an error. *)
Definition stream_step (i : nat) (bytes : list byte) (err : bool)
    (g : Globals) (st : streamer) : Globals * streamer :=
  match s_pc st with
  | S_cas =>
      if streamActive g
      then (g, s_fail "Stream already active" StatusConflict st)
      else (set_streamActive true g, s_goto S_auth st)
  | S_auth =>
      let '(user, pass, ok) := credentials DecodeString (s_req st) in
      if negb ok then
        (set_streamActive false g,
         s_fail "Unauthorized - no credentials" StatusUnauthorized st)
      else
        let '(valid, aerr) := Authenticate user pass in
        if bool_decide (aerr <> None) || negb valid then
          (set_streamActive false g,
           s_fail "Unauthorized" StatusUnauthorized st)
        else (g, s_goto S_begin st)
  | S_begin =>
      (newStreamCtx g, s_goto S_read (s_set_buf (replicate 1024 x00) st))
  | S_read =>
      if length bytes <=? 1024 then
        let st := s_set_buf (bytes ++ drop (length bytes) (s_buf st)) st in
        if 0 <? length bytes then (g, s_goto (S_once (length bytes) err) st)
        else if err then (g, s_goto S_store st)
        else (g, s_goto S_read st)
      else (g, st)
  | S_once n err =>
      if firstDataOnce g then (g, s_goto (S_ring n err) st)
      else
        let g := set_firstDataOnce true g in
        if fired (gates g) (firstData g)
        then (* close of a closed channel panics; the deferred function runs *)
          (g, s_goto S_store st)
        else
          (set_firstData (firstData g) (<[firstData g := true]> (gates g)) g,
           s_goto (S_ring n err) st)
  | S_ring n err =>
      (ringAppend (take n (s_buf st)) g, s_goto (S_fanout n err) st)
  | S_fanout n err =>
      (fanout {| sl_array := i; sl_len := n |} g,
       s_goto (if err then S_store else S_read) st)
  | S_store => (set_streamActive false g, s_goto S_cancel st)
  | S_cancel =>
      (set_ctx (streamCancelFn g) (streamCtx g)
         (cancel (streamCancelFn g) (ctxs g)) g,
       s_goto S_clear st)
  | S_clear => (clearListeners g, s_goto S_resetOnce st)
  | S_resetOnce => (set_firstDataOnce false g, s_goto S_resetGate st)
  | S_resetGate =>
      (set_firstData (length (gates g)) (gates g ++ [false]) g,
       s_goto S_resetRing st)
  | S_resetRing => (newRingBuffer g, s_goto S_resetCtx st)
  | S_resetCtx => (newStreamCtx g, s_goto S_done st)
  | S_done => (g, st)
  end.

(** What [<-ch] gives on a closed channel: nil. *)
Definition nil_slice : slice := {| sl_array := 0; sl_len := 0 |}.

(** One step of a goroutine of [listenHandler].  [c] is the case its
    [select] commits to (the step is void when that case is not ready),
    [werr] whether [w.Write] fails, [view] the bytes behind a slice.
    [ringBuffer.Bytes()] and [<-ch] give slices, not copies: what
    [w.Write] sends are the bytes behind the slice when it runs, on
    another step than the one that took the slice. *)
Definition listen_step (c : case) (werr : bool) (view : slice -> list byte)
    (g : Globals) (l : listener) : Globals * listener :=
  match l_pc l with
  | L_capture => (g, l_goto L_enter (l_set_ctx (streamCtx g) l))
  | L_enter => (g, l_goto (L_wait (firstData g)) l)
  | L_wait gate =>
      match c with
      | CaseData =>
          if fired (gates g) gate then (g, l_goto L_active l) else (g, l)
      | CaseClient => (g, l_goto L_done l)
      | CaseStream =>
          if fired (ctxs g) (l_ctx l)
          then (g, l_fail "No active stream" StatusServiceUnavailable l)
          else (g, l)
      end
  | L_active =>
      if negb (streamActive g)
      then (g, l_fail "No active stream" StatusServiceUnavailable l)
      else (g, l_goto L_register l)
  | L_register =>
      let ch := length (chans g) in
      (registerListener ch
         (set_listeners (listeners g) (chans g ++ [make_chan]) g),
       l_goto L_snapshot (l_set_ch ch l))
  | L_snapshot =>
      let n := length (ringBuffer g) in
      if 0 <? n then (g, l_goto (L_buffered (length (ringOld g)) n) l)
      else (g, l_goto L_loop l)
  | L_buffered a n =>
      if werr then (g, l_goto L_unregister l)
      else (g, l_goto L_loop (l_write (take n (ringBytes g a)) l))
  | L_loop =>
      match c with
      | CaseData =>
          match chans g !! l_ch l with
          | Some ch =>
              match queue ch with
              | data :: rest =>
                  let g :=
                    set_listeners (listeners g)
                      (<[l_ch l := {| queue := rest; closed := closed ch |}]>
                         (chans g)) g in
                  (g, l_goto (L_write data) l)
              | [] =>
                  if closed ch then (g, l_goto (L_write nil_slice) l)
                  else (g, l)
              end
          | None => (g, l)
          end
      | CaseClient => (g, l_goto L_unregister l)
      | CaseStream =>
          if fired (ctxs g) (l_ctx l) then (g, l_goto L_unregister l)
          else (g, l)
      end
  | L_write data =>
      if werr then (g, l_goto L_unregister l)
      else (g, l_goto L_loop (l_write (view data) l))
  | L_unregister => (unregisterListener (l_ch l) g, l_goto L_done l)
  | L_done => (g, l)
  end.

(** The server: the package-level variables and the goroutines of the two
    handlers, one per connection. *)
Record Sys := {
  globals : Globals;
  streamers : list streamer;
  listening : list listener
}.

(** The bytes behind a slice, now. *)
Definition view (ss : list streamer) (d : slice) : list byte :=
  take (sl_len d) (default [] (s_buf <$> ss !! sl_array d)).

(** The scheduler runs one step of one goroutine. *)
Inductive action :=
| AStream (i : nat) (bytes : list byte) (err : bool)
| AListen (j : nat) (c : case) (werr : bool).

Definition exec (a : action) (s : Sys) : Sys :=
  match a with
  | AStream i bytes err =>
      match streamers s !! i with
      | Some st =>
          let '(g, st) := stream_step i bytes err (globals s) st in
          {| globals := g; streamers := <[i := st]> (streamers s);
             listening := listening s |}
      | None => s
      end
  | AListen j c werr =>
      match listening s !! j with
      | Some l =>
          let '(g, l) :=
            listen_step c werr (view (streamers s)) (globals s) l in
          {| globals := g; streamers := streamers s;
             listening := <[j := l]> (listening s) |}
      | None => s
      end
  end.

(** An interleaving is a list of actions. *)
Definition run (sch : list action) (s : Sys) : Sys :=
  foldl (fun s a => exec a s) s sch.

End Goroutines.

(** The request carries no credentials, or [Authenticate] turns them down
    ([err != nil || !valid]). *)
Definition unauthorized (DecodeString : string -> option string)
    (Authenticate : string -> string -> bool * option NickServAuth.error)
    (r : Request) : Prop :=
  let '(user, pass, ok) := credentials DecodeString r in
  if ok then
    bool_decide ((Authenticate user pass).2 <> None)
    || negb (Authenticate user pass).1 = true
  else True.

(** The request carries credentials that [Authenticate] accepts. *)
Definition authorized (DecodeString : string -> option string)
    (Authenticate : string -> string -> bool * option NickServAuth.error)
    (r : Request) : Prop :=
  let '(user, pass, ok) := credentials DecodeString r in
  ok = true /\ Authenticate user pass = (true, None).

(** A sample environment: no [Authorization] header decodes, and NickServ
    accepts every account. *)
Definition DecodeString0 (s : string) : option string := None.
Definition Authenticate0 (user pass : string)
  : bool * option NickServAuth.error := (true, None).

Definition new_streamer (r : Request) : streamer :=
  {| s_pc := S_cas; s_req := r; s_buf := []; s_error := None |}.

Definition new_listener : listener :=
  {| l_pc := L_capture; l_ctx := 0; l_ch := 0; l_error := None; l_out := [] |}.

(** The server after [Start], with the connections that are going to
    arrive: one streamer per request, and [n] listeners. *)
Definition init (reqs : list Request) (n : nat) : Sys :=
  {| globals := resetStreamState zero;
     streamers := new_streamer <$> reqs;
     listening := replicate n new_listener |}.

(** *** The session, as seen from the goroutines *)

(** The streamer goroutine is a publisher in the Active state: it won the
    compare-and-swap and has not stored [false] yet. *)
Definition holds (st : streamer) : bool :=
  match s_pc st with
  | S_auth | S_begin | S_read | S_once _ _ | S_ring _ _ | S_fanout _ _
  | S_store => true
  | _ => false
  end.

Definition count_if {A} (P : A -> bool) (l : list A) : nat :=
  length (filter (fun x => P x = true) l).

(** Number of publishers in the Active state. *)
Definition active_publishers (s : Sys) : nat := count_if holds (streamers s).

Definition b2n (b : bool) : nat := if b then 1 else 0.

(** The flag is set exactly when one streamer is in the Active state. *)
Definition excl (s : Sys) : Prop :=
  active_publishers s = b2n (streamActive (globals s)).

(** The ring buffer is within its capacity, and no streamer has a read
    buffer of more than 1024 bytes. *)
Definition ring_ok (s : Sys) : Prop :=
  (Ring.len (ringBuffer (globals s)) <= Ring.maxRingBufferSize)%Z
  /\ forall i st, streamers s !! i = Some st -> length (s_buf st) <= 1024.

(** The registered channels exist and are open. *)
Definition registered_open (g : Globals) : Prop :=
  forall ch, ch ∈ listeners g ->
    exists c, chans g !! ch = Some c /\ closed c = false.

(** The listener goroutine has captured [currentStreamCtx]. *)
Definition captured (l : listener) : bool :=
  match l_pc l with
  | L_capture => false
  | _ => true
  end.

(** What a step does to the contexts: the heap only grows, the current
    context stays or becomes a new one, and an old context is cancelled
    only through the cancel function in [streamCancelFn]. *)
Definition ctx_step (g g' : Globals) : Prop :=
  length (ctxs g) <= length (ctxs g')
  /\ (streamCtx g' = streamCtx g \/ length (ctxs g) <= streamCtx g')
  /\ forall c, c < length (ctxs g) -> fired (ctxs g') c = true ->
       fired (ctxs g) c = true \/ streamCancelFn g = Some c.

(** The current context exists, and so does the context of every
    listener that has captured one. *)
Definition tokens_ok (s : Sys) : Prop :=
  streamCtx (globals s) < length (ctxs (globals s))
  /\ forall j l, listening s !! j = Some l -> captured l = true ->
       l_ctx l < length (ctxs (globals s)).

End Server.

(** ** Scenarios *)

Module Scenario.
Import Server.
Local Open Scope string_scope.
Local Open Scope nat_scope.

(** A streamer that gives its credentials in [X-Source-Password]. *)
Definition dj : Request :=
  {| Authorization := ""; XSourcePassword := "dj:pw"; QueryPassword := "" |}.

(** A streamer without credentials. *)
Definition anonymous : Request :=
  {| Authorization := ""; XSourcePassword := ""; QueryPassword := "" |}.

Definition exec := Server.exec DecodeString0 Authenticate0.
Definition run := Server.run DecodeString0 Authenticate0.

(** Streamer [i] takes one step that is not a read. *)
Definition step (i : nat) : action := AStream i [] false.

(** Streamer [i] reads [bytes]; [err] says whether the body ends there. *)
Definition read (i : nat) (bytes : list byte) (err : bool) : action :=
  AStream i bytes err.

(** Listener [j] takes one step; in a [select], the data case. *)
Definition go (j : nat) : action := AListen j CaseData false.

(** Listener [j] takes the cancellation case of its [select]. *)
Definition stop (j : nat) : action := AListen j CaseStream false.

(** The client of listener [j] goes away and its [select] notices. *)
Definition leave (j : nat) : action := AListen j CaseClient false.

(** Streamer [i] connects, is authenticated and begins its session. *)
Definition connect (i : nat) : list action := [step i; step i; step i].

(** Streamer [i] reads one chunk and broadcasts it. *)
Definition publish (i : nat) (bytes : list byte) : list action :=
  [read i bytes false; step i; step i; step i].

(** The body of streamer [i] ends with a last chunk, and the deferred
    function runs to its end. *)
Definition disconnect (i : nat) (bytes : list byte) : list action :=
  read i bytes true :: replicate 10 (step i).

(** Listener [j] connects, passes the gate and the check of
    [streamActive], and registers. *)
Definition register (j : nat) : list action := replicate 5 (go j).

(** Listener [j] takes the slice [ringBuffer.Bytes()] and writes it, or
    takes a slice from its channel and writes it. *)
Definition send (j : nat) : list action := [go j; go j].

(** Listener [j] registers and then sends the buffered data. *)
Definition join (j : nat) : list action := (register j ++ send j)%list.

(** What one [Read] that returns [n > 0] delivers. *)
Definition chunk_ok (c : list byte) : Prop := 0 < length c <= 1024.

(** Streamer [i] reads and broadcasts the chunks one after the other. *)
Definition publishes (i : nat) (chunks : list (list byte)) : list action :=
  chunks ≫= publish i.


(** One streamer and one listener. *)
Definition sys1 (g : Globals) (st : streamer) (l : listener) : Sys :=
  {| globals := g; streamers := [st]; listening := [l] |}.

(** The streamer of request [r] at [pc] with [buf], not answered yet. *)
Definition mk (r : Request) (pc : spc) (buf : list byte) : streamer :=
  {| s_pc := pc; s_req := r; s_buf := buf; s_error := None |}.

(** A listener that was not answered with an error. *)
Definition lis (pc : lpc) (ctx ch : nat) (out : list byte) : listener :=
  {| l_pc := pc; l_ctx := ctx; l_ch := ch; l_error := None; l_out := out |}.

(** [firstDataOnce.Do] when the gate is still open or the [Once] ran. *)
Definition onceDo (g : Globals) : Globals :=
  if firstDataOnce g then g
  else set_firstData (firstData g) (<[firstData g := true]> (gates g))
         (set_firstDataOnce true g).

(** The effect on the variables of streamer 0 reading and broadcasting
    the chunk [c]. *)
Definition broadcast_g (c : list byte) (g : Globals) : Globals :=
  fanout {| sl_array := 0; sl_len := length c |} (ringAppend c (onceDo g)).

(** The first listener channel is made and registered. *)
Definition registered0 (g : Globals) : Globals :=
  registerListener 0 (set_listeners (listeners g) (chans g ++ [make_chan]) g).

(** A streamer is attached, and the gate is closed exactly when the
    [Once] has run. *)
Record streaming (g : Globals) : Prop := {
  st_active : streamActive g = true;
  st_gate : fired (gates g) (firstData g) = firstDataOnce g;
  st_gate_lt : firstData g < length (gates g)
}.


End Scenario.

(** ** Invariants of the running server *)

Module Invariants.
Import Server.
Local Open Scope nat_scope.

(** No listener channel holds more than [chanCap] pending slices. *)
Definition queues_bounded (g : Globals) : Prop :=
  forall ch c, chans g !! ch = Some c -> length (queue c) <= chanCap.

(** The listener goroutine has made and registered its channel and has not
    run its deferred [unregisterListener] yet. *)
Definition has_chan (l : listener) : bool :=
  match l_pc l with
  | L_snapshot | L_buffered _ _ | L_loop | L_write _ | L_unregister => true
  | _ => false
  end.

(** Every key of [listeners] is the channel of one such goroutine; the
    channels of these goroutines exist and are pairwise distinct. *)
Definition owned (s : Sys) : Prop :=
  (forall ch, ch ∈ listeners (globals s) ->
     exists j l, listening s !! j = Some l /\ has_chan l = true /\ l_ch l = ch)
  /\ (forall j l, listening s !! j = Some l -> has_chan l = true ->
        l_ch l < length (chans (globals s)))
  /\ (forall j j' l l',
        listening s !! j = Some l -> listening s !! j' = Some l' ->
        has_chan l = true -> has_chan l' = true -> l_ch l = l_ch l' -> j = j').

(** [streamCancelFn] cancels the current context, which exists. *)
Definition cancel_current (g : Globals) : Prop :=
  streamCancelFn g = Some (streamCtx g) /\ streamCtx g < length (ctxs g).

(** No streamer is attached and the server waits for one: no listener is
    registered, the ring buffer is empty, the [Once] has not run, the gate
    has not fired and the current context is not cancelled. *)
Definition idle (g : Globals) : Prop :=
  streamActive g = false /\ listeners g = ∅ /\ ringBuffer g = []
  /\ firstDataOnce g = false
  /\ fired (gates g) (firstData g) = false
  /\ fired (ctxs g) (streamCtx g) = false
  /\ cancel_current g.

(** The deferred function of [streamHandler], run to its end without
    interruption: lines 122-125. *)
Definition endSession (g : Globals) : Globals :=
  resetStreamState
    (clearListeners
       (set_ctx (streamCancelFn g) (streamCtx g)
          (cancel (streamCancelFn g) (ctxs g)) (set_streamActive false g))).

(** The request [r] with another [password] query value. *)
Definition with_query (r : Request) (q : string) : Request :=
  {| Authorization := Authorization r; XSourcePassword := XSourcePassword r;
     QueryPassword := q |}.

End Invariants.

(** ** What a line of [nickcast.conf] assigns *)

Module ConfigLines.
Import Strings Config.
Local Open Scope string_scope.

(** The key and the value that the line [text] assigns, when it is neither
    blank nor a comment and has an equals sign. *)
Definition assignment (text : string) : option (string * string) :=
  let line := TrimSpace text in
  if (line =? "") || HasPrefix line "#" then None
  else match Cut line "="%char with
       | Some (key, value) => Some (TrimSpace key, TrimSpace value)
       | None => None
       end.

(** The value that [text] assigns to [key], if it assigns to [key]. *)
Definition assigns (key : string) (text : string) : option string :=
  match assignment text with
  | Some (k, v) => if k =? key then Some v else None
  | None => None
  end.

(** The value of [key] after all the lines: the last one assigned to it,
    or the empty string. *)
Definition setting (key : string) (lines : list string) : string :=
  default "" (last (omap (assigns key) lines)).

(** The loop of [LoadConfig] does not look at the line. *)
Definition ignored (text : string) : Prop :=
  match assignment text with
  | Some (k, _) => k <> "listen" /\ k <> "auth_url" /\ k <> "api_token"
  | None => True
  end.

End ConfigLines.

(** * Theorems *)

(** ** The ring buffer *)

Section RingFacts.
Import Ring.
Context {A : Type}.
Implicit Types l d : list A.

Lemma suffix_lastn (n : Z) l : suffix n l = lastn (Z.to_nat n) l.
Proof. reflexivity. Qed.

Lemma lastn_all (n : nat) l : (length l <= n)%nat -> lastn n l = l.
Proof.
  intros H. unfold lastn. now replace (length l - n)%nat with 0%nat by lia.
Qed.

Lemma lastn_length (n : nat) l : length (lastn n l) = Nat.min n (length l).
Proof. unfold lastn. rewrite length_drop. lia. Qed.

Lemma lastn_app (n : nat) l d :
  (n <= length l)%nat -> lastn (n + length d) (l ++ d) = lastn n l ++ d.
Proof.
  intros H. unfold lastn. rewrite length_app.
  replace (length l + length d - (n + length d))%nat with (length l - n)%nat
    by lia.
  apply drop_app_le. lia.
Qed.

Lemma lastn_lastn (a b : nat) l : lastn a (lastn b l) = lastn (Nat.min a b) l.
Proof.
  unfold lastn. rewrite length_drop, drop_drop. f_equal. lia.
Qed.

Lemma lastn_min (n : nat) l : lastn n l = lastn (Nat.min n (length l)) l.
Proof. unfold lastn. f_equal. lia. Qed.

End RingFacts.

Section RingWrite.
Import Ring.
Implicit Types buf data : list byte.

(** The critical section keeps the last [max (cap - len data) 0] bytes of
    the old contents and appends the chunk. *)
Lemma ringWrite_spec cap buf data :
  ringWrite cap buf data = suffix (Z.max (cap - len data) 0) buf ++ data.
Proof.
  unfold ringWrite, suffix, slice_from, len.
  destruct (Z.gtb_spec (Z.of_nat (length buf) + Z.of_nat (length data)) cap)
    as [Hov|Hfit].
  - destruct (Z.ltb_spec (cap - Z.of_nat (length data)) 0) as [Hneg|Hpos].
    + rewrite Z.max_r by lia. simpl Z.to_nat. rewrite Nat.sub_0_r.
      destruct (Z.gtb_spec (Z.of_nat (length buf)) 0).
      * do 2 f_equal. lia.
      * destruct buf; [reflexivity | simpl in *; lia].
    + rewrite Z.max_l by lia.
      destruct (Z.gtb_spec (Z.of_nat (length buf))
                  (cap - Z.of_nat (length data))); [|lia].
      do 2 f_equal. lia.
  - f_equal. rewrite Z.max_l by lia.
    replace (length buf - _)%nat with 0%nat by lia. reflexivity.
Qed.

(** A chunk longer than the capacity replaces the buffer and is kept whole. *)
Lemma ringWrite_oversized cap buf data :
  0 <= cap -> cap < len data -> ringWrite cap buf data = data.
Proof.
  intros Hc Hd. rewrite ringWrite_spec, Z.max_r by lia.
  unfold suffix. simpl Z.to_nat. now rewrite Nat.sub_0_r, drop_all.
Qed.

Lemma total_snoc chunks data : total (chunks ++ [data]) = total chunks + len data.
Proof.
  unfold total, len. rewrite concat_app, length_app. simpl.
  rewrite app_nil_r. lia.
Qed.

Lemma last_len_snoc chunks data : last_len (chunks ++ [data]) = len data.
Proof. unfold last_len. now rewrite last_snoc. Qed.

(** The exact contents after any sequence of chunks. *)
Lemma ringWrites_exact cap chunks :
  0 <= cap ->
  ringWrites cap chunks
  = suffix (Z.min (total chunks) (Z.max cap (last_len chunks))) (concat chunks).
Proof.
  intros Hcap. induction chunks as [|data chunks IH] using rev_ind.
  - reflexivity.
  - unfold ringWrites in *. rewrite foldl_snoc, IH, ringWrite_spec.
    rewrite total_snoc, last_len_snoc, concat_app. simpl concat.
    rewrite app_nil_r, !suffix_lastn, lastn_lastn.
    set (N := Z.min (total chunks) (Z.max cap (last_len chunks))).
    assert (HN : 0 <= N <= total chunks).
    { unfold N, total, last_len, len. destruct (last chunks); lia. }
    assert (HNc : cap <= Z.max cap (last_len chunks)) by lia.
    rewrite (lastn_min _ (concat chunks)).
    rewrite <- lastn_app by lia. f_equal.
    unfold total, len in *. lia.
Qed.

End RingWrite.

Section RingClaims.
Import Ring.

(** C1 (amended).  After any sequence of chunks appended by [broadcast]
    to an initially empty ring buffer, the buffer holds exactly the last
    [min total (max capacity (length of the last chunk))] bytes ever
    appended.  Hence, whenever the last chunk is no longer than the
    capacity, the length is at most the capacity (128 KB) and the contents
    are the suffix of length [min total capacity] of everything appended;
    and when the last chunk alone exceeds the capacity, the old contents
    are dropped and the whole chunk is kept, not only its tail. *)
Theorem C1_ring_window (chunks : list (list byte)) :
  let buf := ringWrites maxRingBufferSize chunks in
  buf = suffix (Z.min (total chunks) (Z.max maxRingBufferSize (last_len chunks)))
          (concat chunks)
  /\ (last_len chunks <= maxRingBufferSize ->
      len buf <= maxRingBufferSize
      /\ buf = suffix (Z.min (total chunks) maxRingBufferSize) (concat chunks))
  /\ (forall data, last chunks = Some data -> maxRingBufferSize < len data ->
      buf = data).
Proof.
  intros buf.
  assert (Hex := ringWrites_exact maxRingBufferSize chunks ltac:(done)).
  fold buf in Hex. split; [exact Hex|]. split.
  - intros Hl. rewrite Z.max_l in Hex by lia. split; [|exact Hex].
    rewrite Hex, suffix_lastn. unfold total, len. rewrite lastn_length.
    unfold maxRingBufferSize. lia.
  - intros data Hlast Hbig.
    destruct chunks as [|c cs] using rev_ind; [done|].
    rewrite last_snoc in Hlast. injection Hlast as ->.
    unfold buf, ringWrites. rewrite foldl_snoc.
    apply ringWrite_oversized; [done | exact Hbig].
Qed.

(** A chunk of 128 KB + 1 byte. *)
Lemma len_big_chunk : len big_chunk = 131073.
Proof. unfold len, big_chunk. rewrite length_replicate. lia. Qed.

Lemma ringWrites_one cap (data : list byte) :
  ringWrites cap [data] = ringWrite cap [] data.
Proof. reflexivity. Qed.

(** Witness of C1 (amended): two chunks of three and two bytes. *)
Lemma C1_ring_window_witness :
  let chunks := [[x01; x02; x03]; [x04; x05]] in
  let buf := ringWrites maxRingBufferSize chunks in
  len buf <= maxRingBufferSize
  /\ buf = suffix (Z.min (total chunks) maxRingBufferSize) (concat chunks).
Proof.
  intros chunks buf.
  exact (proj1 (proj2 (C1_ring_window chunks))
           ltac:(vm_compute; discriminate)).
Defined.

(** C1 as stated fails: one chunk of 128 KB + 1 byte, appended to the empty
    buffer, leaves a buffer longer than the capacity. *)
Lemma C1_counterexample :
  let chunks := [big_chunk] in
  let buf := ringWrites maxRingBufferSize chunks in
  ~ (len buf <= maxRingBufferSize
     /\ buf = suffix (Z.min (total chunks) maxRingBufferSize) (concat chunks)).
Proof.
  intros chunks buf [Hlen _]. revert Hlen.
  unfold buf, chunks. rewrite ringWrites_one.
  rewrite ringWrite_oversized; [| done | rewrite len_big_chunk; done].
  rewrite len_big_chunk. unfold maxRingBufferSize. lia.
Qed.

End RingClaims.

(** ** The NickServ client *)

Section AuthFacts.
Import NickServAuth.
Variable Marshal : AuthRequest -> string + string.
Variable NewRequest : string -> string -> string -> Request + string.
Variable Do : Request -> Response + string.
Variable Decode : string -> AuthResponse + string.

Abbreviation Authenticate := (Authenticate Marshal NewRequest Do Decode).
Abbreviation sent_request := (sent_request Marshal NewRequest).

(** A [true] result comes with a [nil] error. *)
Lemma Authenticate_true_nil a user pass :
  (Authenticate a user pass).1 = true -> (Authenticate a user pass).2 = None.
Proof.
  unfold NickServAuth.Authenticate.
  repeat (case_match; simpl; try done).
Qed.

(** C8.  [Authenticate] returns [true] exactly when the request was sent,
    the response has status 200, its body decodes and the decoded
    [success] field is [true].  A transport error, a status other than 200
    and a decode error each give [false] with an error; a decoded
    [success: false] gives [false]; a request that could not be built
    gives [false] with an error. *)
Theorem C8_Authenticate_fails_closed (a : AuthClient) (user pass : string) :
  let r := Authenticate a user pass in
  (r.1 = true <->
     exists req resp authResp,
       sent_request a user pass = Some req /\ Do req = inl resp
       /\ StatusCode resp = StatusOK /\ Decode (Body resp) = inl authResp
       /\ Success authResp = true)
  /\ (forall req, sent_request a user pass = Some req ->
        (forall cause, Do req = inr cause ->
           r = (false, Some (ErrRequest cause)))
        /\ (forall resp, Do req = inl resp -> StatusCode resp <> StatusOK ->
              r = (false, Some (ErrStatus (StatusCode resp))))
        /\ (forall resp cause, Do req = inl resp ->
              StatusCode resp = StatusOK -> Decode (Body resp) = inr cause ->
              r = (false, Some (ErrDecode cause)))
        /\ (forall resp authResp, Do req = inl resp ->
              StatusCode resp = StatusOK ->
              Decode (Body resp) = inl authResp ->
              Success authResp = false -> r.1 = false))
  /\ (sent_request a user pass = None -> r.1 = false /\ r.2 <> None).
Proof.
  intros r. subst r.
  unfold NickServAuth.Authenticate, NickServAuth.sent_request.
  destruct (Marshal _) as [jsonData|e1]; simpl.
  2:{ split; [split; [done | intros (?&?&?&?&_); done] | split; done]. }
  destruct (NewRequest _ _ _) as [req0|e2]; simpl.
  2:{ split; [split; [done | intros (?&?&?&?&_); done] | split; done]. }
  set (req := Header_Set _ _ _).
  split; [|split; [|done]].
  - split.
    + destruct (Do req) as [resp|e3] eqn:HDo; simpl; [|done].
      destruct (Z.eqb_spec (StatusCode resp) StatusOK) as [Hst|Hst]; simpl;
        [|done].
      destruct (Decode (Body resp)) as [authResp|e4] eqn:HDec; simpl; [|done].
      destruct (Success authResp) eqn:HS; simpl.
      * intros _. exists req, resp, authResp. done.
      * destruct (Message authResp =? "")%string; simpl; done.
    + intros (req' & resp & authResp & [= <-] & HDo & Hst & HDec & HS).
      rewrite HDo. simpl. rewrite Hst, Z.eqb_refl. simpl.
      rewrite HDec. simpl. rewrite HS. done.
  - intros req' [= <-]. repeat split.
    + intros cause ->. done.
    + intros resp -> Hst. simpl.
      destruct (Z.eqb_spec (StatusCode resp) StatusOK); done.
    + intros resp cause -> Hst ->. simpl. rewrite Hst. done.
    + intros resp authResp -> Hst -> HS. simpl. rewrite Hst. simpl.
      rewrite HS. simpl. destruct (Message authResp =? "")%string; done.
Qed.

End AuthFacts.

Section AuthWitness.
Import NickServAuth.
Local Open Scope string_scope.

(** Witness of C8: [success: false] without a message is a plain [false]. *)
Lemma C8_Authenticate_fails_closed_witness :
  (Authenticate Marshal0 NewRequest0 Do0 Decode0
     (NewAuthClient "http://localhost:8089/v1/check_auth" "t") "nick" "pw").1
  = false.
Proof.
  set (a := NewAuthClient _ _).
  destruct (C8_Authenticate_fails_closed Marshal0 NewRequest0 Do0 Decode0
              a "nick" "pw") as (_ & H & _).
  destruct (H _ eq_refl) as (_ & _ & _ & H4).
  exact (H4 _ _ eq_refl eq_refl eq_refl eq_refl).
Defined.

End AuthWitness.

(** ** The configuration loader *)

Section ConfigFacts.
Import Config.
Local Open Scope string_scope.

(** C9.  [LoadConfig] returns [nil] if and only if the file could be read
    and the parsed [auth_url] and [api_token] are not empty, whatever the
    [listen] key is; on success [AppConfig] holds the parsed values, with
    the listen address [":8000"] when the parsed one is empty (key absent
    or empty); on an error [AppConfig] keeps its value. *)
Theorem C9_LoadConfig (file : File) (AppConfig : Config) :
  let r := LoadConfig file AppConfig in
  (r.2 = None <->
     ~ unreadable file /\ AuthURL (parsed file) <> ""
     /\ APIToken (parsed file) <> "")
  /\ (r.2 = None ->
      r.1 = {| ListenAddress :=
                 if ListenAddress (parsed file) =? "" then ":8000"
                 else ListenAddress (parsed file);
               AuthURL := AuthURL (parsed file);
               APIToken := APIToken (parsed file) |})
  /\ (r.2 <> None -> r.1 = AppConfig).
Proof.
  intros r. subst r. unfold LoadConfig, unreadable, parsed.
  destruct file as [c|p c|lines [e|]]; simpl.
  1-3: split; [split; [done | intros [H _]; exfalso; apply H; exact I]
              | split; done].
  set (cfg := scanLines lines).
  assert (HA : AuthURL (if ListenAddress cfg =? "" then
                {| ListenAddress := ":8000"; AuthURL := AuthURL cfg;
                   APIToken := APIToken cfg |} else cfg) = AuthURL cfg)
    by (destruct (ListenAddress cfg =? ""); done).
  assert (HT : APIToken (if ListenAddress cfg =? "" then
                {| ListenAddress := ":8000"; AuthURL := AuthURL cfg;
                   APIToken := APIToken cfg |} else cfg) = APIToken cfg)
    by (destruct (ListenAddress cfg =? ""); done).
  rewrite HA, HT.
  destruct (String.eqb_spec (AuthURL cfg) "") as [Ha|Ha]; simpl.
  { split; [split; [done | intros (_ & H & _); done] | split; done]. }
  destruct (String.eqb_spec (APIToken cfg) "") as [Ht|Ht]; simpl.
  { split; [split; [done | intros (_ & _ & H); done] | split; done]. }
  split; [split; [intros _; repeat split; auto | done] | split; [|done]].
  intros _. destruct (ListenAddress cfg =? ""); [done|]. now destruct cfg.
Qed.

(** Witness of C9: a file without a [listen] key and one whose [listen]
    key is empty both load, with the listen address [":8000"]. *)
Lemma C9_LoadConfig_witness :
  let absent := Scanned ["# NickServ API endpoint";
                         "auth_url = http://localhost:8089/v1/check_auth";
                         ""; " api_token=secret "] None in
  let empty := Scanned ["listen ="; "auth_url=u"; "api_token=t"] None in
  (LoadConfig absent zero).1
  = {| ListenAddress := ":8000";
       AuthURL := "http://localhost:8089/v1/check_auth";
       APIToken := "secret" |}
  /\ (LoadConfig empty zero).1
     = {| ListenAddress := ":8000"; AuthURL := "u"; APIToken := "t" |}.
Proof.
  intros absent empty. split.
  - exact (proj1 (proj2 (C9_LoadConfig absent zero)) eq_refl).
  - exact (proj1 (proj2 (C9_LoadConfig empty zero)) eq_refl).
Defined.

End ConfigFacts.

(** ** Credentials *)

Section StringFacts.
Import Strings.
Local Open Scope string_scope.

Lemma Cut_first (name secret : string) (sep : ascii) :
  ContainsByte name sep = false ->
  Cut (name ++ String sep secret) sep = Some (name, secret).
Proof.
  induction name as [|c name IH]; simpl.
  - intros _. now rewrite Ascii.eqb_refl.
  - intros H. apply orb_false_iff in H as [Hc Hn].
    rewrite Hc, (IH Hn). reflexivity.
Qed.

Lemma Cut_none (s : string) (sep : ascii) :
  ContainsByte s sep = false -> Cut s sep = None.
Proof.
  induction s as [|c s IH]; simpl; [done|].
  intros H. apply orb_false_iff in H as [Hc Hn].
  now rewrite Hc, (IH Hn).
Qed.

Lemma Cut_some (s : string) (sep : ascii) :
  ContainsByte s sep = true -> exists before after, Cut s sep = Some (before, after).
Proof.
  induction s as [|c s IH]; simpl; [done|].
  destruct (Ascii.eqb c sep); simpl; [eauto|].
  intros H. destruct (IH H) as (before & after & ->). eauto.
Qed.

Lemma SplitN2_first (name secret : string) (sep : ascii) :
  ContainsByte name sep = false ->
  SplitN2 (name ++ String sep secret) sep = [name; secret].
Proof. intros H. unfold SplitN2. now rewrite Cut_first. Qed.

Lemma SplitN2_none (s : string) (sep : ascii) :
  ContainsByte s sep = false -> SplitN2 s sep = [s].
Proof. intros H. unfold SplitN2. now rewrite Cut_none. Qed.

Lemma substring_all (s : string) : substring 0 (String.length s) s = s.
Proof. induction s; simpl; congruence. Qed.

Lemma string_from_app (p s : string) :
  Server.string_from (p ++ s) (String.length p) = s.
Proof.
  unfold Server.string_from. induction p as [|c p IH]; simpl.
  - rewrite Nat.sub_0_r. apply substring_all.
  - exact IH.
Qed.

Lemma prefix_app (p s : string) : String.prefix p (p ++ s) = true.
Proof.
  induction p as [|c p IH]; simpl; [now destruct s|].
  destruct (ascii_dec c c); [exact IH | done].
Qed.

End StringFacts.

Section CredentialFacts.
Import Strings Server.
Local Open Scope string_scope.
Variable DecodeString : string -> option string.
Variable Authenticate : string -> string -> bool * option NickServAuth.error.

Lemma parseBasicAuth_Basic (r : Request) (b64 payload : string) :
  Authorization r = "Basic " ++ b64 -> DecodeString b64 = Some payload ->
  parseBasicAuth DecodeString r
  = match SplitN2 payload ":"%char with
    | [pair0; pair1] => (pair0, pair1, true)
    | _ => ("", "", false)
    end.
Proof.
  intros Hauth Hdec. unfold parseBasicAuth. rewrite Hauth.
  assert (H1 : ("Basic " ++ b64 =? "") = false) by reflexivity.
  assert (H2 : HasPrefix ("Basic " ++ b64) "Basic " = true)
    by apply prefix_app.
  rewrite H1, H2. simpl orb. cbv iota.
  rewrite (string_from_app "Basic " b64), Hdec. reflexivity.
Qed.

(** C10.  Credentials are split at the first colon only.  A Basic payload
    [name:secret], and a fallback value [name:secret] (the
    [X-Source-Password] header or, when that is empty, the [password]
    query value, consulted when the Basic header gave nothing), yield the
    name before the first colon and the secret after it, colons included.
    A Basic payload without a colon yields no pair, and neither does a
    fallback value without a colon; the streamer has no credentials
    exactly when neither gives a pair, and it is then answered 401. *)
Theorem C10_credentials_first_colon :
  (forall r b64 name secret,
      Authorization r = "Basic " ++ b64 ->
      DecodeString b64 = Some (name ++ ":" ++ secret) ->
      ContainsByte name ":" = false ->
      credentials DecodeString r = (name, secret, true))
  /\ (forall r name secret,
        (parseBasicAuth DecodeString r).2 = false ->
        sourcePass r = name ++ ":" ++ secret ->
        ContainsByte name ":" = false ->
        credentials DecodeString r = (name, secret, true))
  /\ (forall r b64 payload,
        Authorization r = "Basic " ++ b64 ->
        DecodeString b64 = Some payload ->
        ContainsByte payload ":" = false ->
        parseBasicAuth DecodeString r = ("", "", false))
  /\ (forall r,
        (credentials DecodeString r).2 = false <->
        (parseBasicAuth DecodeString r).2 = false
        /\ ContainsByte (sourcePass r) ":" = false)
  /\ (forall r i bytes err g st,
        (credentials DecodeString r).2 = false ->
        s_pc st = S_auth -> s_req st = r ->
        (stream_step DecodeString Authenticate i bytes err g st).2
        = s_fail "Unauthorized - no credentials" StatusUnauthorized st).
Proof.
  split; [|split; [|split; [|split]]].
  - intros r b64 name secret Hauth Hdec Hname. unfold credentials.
    rewrite (parseBasicAuth_Basic r b64 _ Hauth Hdec).
    change (":" ++ secret) with (String ":" secret).
    now rewrite (SplitN2_first name secret ":" Hname).
  - intros r name secret Hno Hsrc Hname. unfold credentials.
    destruct (parseBasicAuth DecodeString r) as [[user pass] ok].
    simpl in Hno. subst ok. simpl. fold (sourcePass r). rewrite Hsrc.
    change (":" ++ secret) with (String ":" secret).
    rewrite (SplitN2_first name secret ":" Hname).
    destruct name; reflexivity.
  - intros r b64 payload Hauth Hdec Hno.
    rewrite (parseBasicAuth_Basic r b64 _ Hauth Hdec).
    now rewrite (SplitN2_none payload ":" Hno).
  - intros r. unfold credentials.
    destruct (parseBasicAuth DecodeString r) as [[user pass] [|]]; simpl.
    { split; [done | intros [? _]; done]. }
    fold (sourcePass r).
    destruct (ContainsByte (sourcePass r) ":") eqn:Hc.
    + destruct (Cut_some _ _ Hc) as (before & after & Hcut).
      unfold SplitN2. rewrite Hcut.
      destruct (sourcePass r); [done|]. simpl.
      split; [done | intros [_ ?]; done].
    + rewrite (SplitN2_none _ ":" Hc).
      destruct (negb (sourcePass r =? "")); done.
  - intros r i bytes err g st Hc Hpc Hreq.
    unfold stream_step. rewrite Hpc, Hreq.
    destruct (credentials DecodeString r) as [[user pass] ok].
    simpl in Hc. subst ok. reflexivity.
Qed.

End CredentialFacts.

(** ** Exclusive admission of the streamer *)

Section CountFacts.
Import Server.
Context {A : Type} (P : A -> bool).
Implicit Types l : list A.

Lemma count_if_cons x l :
  count_if P (x :: l) = ((if P x then 1 else 0) + count_if P l)%nat.
Proof.
  unfold count_if. rewrite filter_cons.
  destruct (decide (P x = true)) as [->|H]; simpl; [done|].
  now destruct (P x).
Qed.

Lemma count_if_insert l i x y :
  l !! i = Some x ->
  (count_if P (<[i := y]> l) + (if P x then 1 else 0)
   = count_if P l + (if P y then 1 else 0))%nat.
Proof.
  revert i. induction l as [|z l IH]; intros [|i] H; simpl in *; try done.
  - injection H as ->. rewrite !count_if_cons. lia.
  - rewrite !count_if_cons. specialize (IH i H). lia.
Qed.

Lemma count_if_zero l i x :
  count_if P l = 0%nat -> l !! i = Some x -> P x = false.
Proof.
  revert i. induction l as [|z l IH]; intros [|i] Hc H; simpl in *; try done.
  - injection H as ->. rewrite count_if_cons in Hc. destruct (P x); [lia|done].
  - rewrite count_if_cons in Hc. apply (IH i); [lia | done].
Qed.

Lemma count_if_unique l i j x y :
  (count_if P l <= 1)%nat -> l !! i = Some x -> l !! j = Some y ->
  P x = true -> P y = true -> i = j.
Proof.
  revert i j. induction l as [|z l IH]; intros [|i] [|j] Hc Hi Hj Hx Hy;
    simpl in *; try done; rewrite count_if_cons in Hc.
  - injection Hi as ->. rewrite Hx in Hc.
    assert (P y = false) by (apply (count_if_zero l j); [lia | done]).
    congruence.
  - injection Hj as ->. rewrite Hy in Hc.
    assert (P x = false) by (apply (count_if_zero l i); [lia | done]).
    congruence.
  - f_equal. apply IH; [lia | done..].
Qed.

Lemma count_if_pos l :
  (0 < count_if P l)%nat -> exists i x, l !! i = Some x /\ P x = true.
Proof.
  induction l as [|z l IH]; rewrite ?count_if_cons; simpl.
  - unfold count_if. simpl. lia.
  - destruct (P z) eqn:Hz.
    + intros _. exists 0%nat, z. done.
    + intros H. destruct (IH H) as (i & x & Hi & Hx).
      exists (S i), x. done.
Qed.

Lemma count_if_all_false l :
  (forall x, x ∈ l -> P x = false) -> count_if P l = 0%nat.
Proof.
  induction l as [|z l IH]; intros H; [done|].
  rewrite count_if_cons, (H z), IH; [done | | left].
  intros x Hx. apply H. now right.
Qed.

End CountFacts.

(** ** What the ring-buffer half of [broadcast] leaves alone *)

Section RingAppendFacts.
Import Server.

Lemma ringBuffer_ringAppend d g :
  ringBuffer (ringAppend d g)
  = Ring.ringWrite Ring.maxRingBufferSize (ringBuffer g) d.
Proof. unfold ringAppend. now case_match. Qed.

Lemma listeners_ringAppend d g : listeners (ringAppend d g) = listeners g.
Proof. unfold ringAppend. now case_match. Qed.

Lemma chans_ringAppend d g : chans (ringAppend d g) = chans g.
Proof. unfold ringAppend. now case_match. Qed.

Lemma firstData_ringAppend d g : firstData (ringAppend d g) = firstData g.
Proof. unfold ringAppend. now case_match. Qed.

Lemma gates_ringAppend d g : gates (ringAppend d g) = gates g.
Proof. unfold ringAppend. now case_match. Qed.

Lemma firstDataOnce_ringAppend d g :
  firstDataOnce (ringAppend d g) = firstDataOnce g.
Proof. unfold ringAppend. now case_match. Qed.

Lemma streamActive_ringAppend d g :
  streamActive (ringAppend d g) = streamActive g.
Proof. unfold ringAppend. now case_match. Qed.

Lemma streamCancelFn_ringAppend d g :
  streamCancelFn (ringAppend d g) = streamCancelFn g.
Proof. unfold ringAppend. now case_match. Qed.

Lemma streamCtx_ringAppend d g : streamCtx (ringAppend d g) = streamCtx g.
Proof. unfold ringAppend. now case_match. Qed.

Lemma ctxs_ringAppend d g : ctxs (ringAppend d g) = ctxs g.
Proof. unfold ringAppend. now case_match. Qed.

End RingAppendFacts.

Ltac ring_append :=
  rewrite ?listeners_ringAppend, ?chans_ringAppend, ?firstData_ringAppend,
    ?gates_ringAppend, ?firstDataOnce_ringAppend, ?streamActive_ringAppend,
    ?streamCancelFn_ringAppend, ?streamCtx_ringAppend, ?ctxs_ringAppend,
    ?ringBuffer_ringAppend in *.

Section Exclusivity.
Import Server.
Local Open Scope string_scope.
Variable DecodeString : string -> option string.
Variable Authenticate : string -> string -> bool * option NickServAuth.error.

Abbreviation stream_step := (stream_step DecodeString Authenticate).
Abbreviation exec := (exec DecodeString Authenticate).
Abbreviation run := (run DecodeString Authenticate).

Lemma run_snoc sch a s : run (sch ++ [a]) s = exec a (run sch s).
Proof. unfold Server.run. now rewrite foldl_snoc. Qed.

Lemma exec_stream s i bytes err st :
  streamers s !! i = Some st ->
  exec (AStream i bytes err) s
  = {| globals := (stream_step i bytes err (globals s) st).1;
       streamers := <[i := (stream_step i bytes err (globals s) st).2]>
                      (streamers s);
       listening := listening s |}.
Proof.
  intros H. unfold Server.exec. rewrite H.
  now destruct (stream_step i bytes err (globals s) st).
Qed.

Lemma exec_listen s j c werr l :
  listening s !! j = Some l ->
  exec (AListen j c werr) s
  = {| globals := (listen_step c werr (view (streamers s)) (globals s) l).1;
       streamers := streamers s;
       listening :=
         <[j := (listen_step c werr (view (streamers s)) (globals s) l).2]>
           (listening s) |}.
Proof.
  intros H. unfold Server.exec. rewrite H.
  now destruct (listen_step c werr (view (streamers s)) (globals s) l).
Qed.

(** No step of [listenHandler] writes [streamActive]. *)
Lemma listen_step_streamActive c werr v g l :
  streamActive (listen_step c werr v g l).1 = streamActive g.
Proof. unfold listen_step. repeat case_match; reflexivity. Qed.

(** Each step of [streamHandler] keeps the flag and the goroutine's own
    state in step. *)
Lemma stream_step_balance i bytes err g st :
  (holds st = true -> streamActive g = true) ->
  (b2n (streamActive (stream_step i bytes err g st).1) + b2n (holds st)
   = b2n (streamActive g) + b2n (holds (stream_step i bytes err g st).2))%nat.
Proof.
  unfold Server.stream_step, holds. intros H.
  destruct (s_pc st) eqn:Hpc; simpl in *; repeat (case_match; simpl in *);
    rewrite ?streamActive_ringAppend;
    destruct (streamActive g) eqn:Hg; simpl in *;
    try lia; try congruence; try (specialize (H eq_refl); congruence).
Qed.

Lemma excl_holder s i st :
  excl s -> streamers s !! i = Some st -> holds st = true ->
  streamActive (globals s) = true.
Proof.
  unfold excl, active_publishers. intros He Hi Hh.
  destruct (streamActive (globals s)); [done|].
  rewrite (count_if_zero holds _ _ _ He Hi) in Hh. done.
Qed.

Lemma excl_init reqs n : excl (init reqs n).
Proof.
  unfold excl, active_publishers. simpl.
  apply count_if_all_false. intros st Hst.
  apply list_elem_of_fmap in Hst as (r & -> & _). reflexivity.
Qed.

Lemma excl_exec a s : excl s -> excl (exec a s).
Proof.
  intros He. destruct a as [i bytes err | j c werr].
  - destruct (streamers s !! i) as [st|] eqn:Hi.
    2:{ unfold Server.exec. now rewrite Hi. }
    rewrite (exec_stream _ _ _ _ _ Hi).
    unfold excl, active_publishers in *. simpl.
    pose proof (count_if_insert holds _ _ _
                  (stream_step i bytes err (globals s) st).2 Hi) as Hc.
    pose proof (stream_step_balance i bytes err (globals s) st
                  (excl_holder s i st He Hi)) as Hb.
    unfold b2n in *. lia.
  - destruct (listening s !! j) as [l|] eqn:Hj.
    2:{ unfold Server.exec. now rewrite Hj. }
    rewrite (exec_listen _ _ _ _ _ Hj).
    unfold excl, active_publishers in *. simpl.
    now rewrite listen_step_streamActive.
Qed.

Lemma excl_run sch reqs n : excl (run sch (init reqs n)).
Proof.
  induction sch as [|a sch IH] using rev_ind.
  - apply excl_init.
  - rewrite run_snoc. now apply excl_exec.
Qed.

(** C2.  In every state that any interleaving of any streamer and
    listener connections reaches, at most one streamer is in the Active
    state, and [streamActive] is set exactly when there is one.  While it
    is set, the compare-and-swap of any other streamer fails: that
    streamer is answered 409 and nothing else changes.  Once it is clear
    again, the next compare-and-swap succeeds and sets it. *)
Theorem C2_exclusive_streamer (reqs : list Request) (n : nat)
    (sch : list action) :
  let s := run sch (init reqs n) in
  (forall i i' st st',
      streamers s !! i = Some st -> streamers s !! i' = Some st' ->
      holds st = true -> holds st' = true -> i = i')
  /\ (streamActive (globals s) = true <->
      exists i st, streamers s !! i = Some st /\ holds st = true)
  /\ (forall i st bytes err,
        streamers s !! i = Some st -> s_pc st = S_cas ->
        streamActive (globals s) = true ->
        exec (AStream i bytes err) s
        = {| globals := globals s;
             streamers :=
               <[i := s_fail "Stream already active" StatusConflict st]>
                 (streamers s);
             listening := listening s |})
  /\ (forall i st bytes err,
        streamers s !! i = Some st -> s_pc st = S_cas ->
        streamActive (globals s) = false ->
        let s' := exec (AStream i bytes err) s in
        streamActive (globals s') = true
        /\ streamers s' !! i = Some (s_goto S_auth st)).
Proof.
  intros s. pose proof (excl_run sch reqs n) as He. fold s in He.
  split; [|split; [split|split]].
  - intros i i' st st' Hi Hi' Hh Hh'.
    apply (count_if_unique holds (streamers s) i i' st st'); try done.
    unfold excl, active_publishers in He. rewrite He.
    unfold b2n. case_match; lia.
  - intros Ha. apply count_if_pos.
    unfold excl, active_publishers in He. rewrite He, Ha. simpl. lia.
  - intros (i & st & Hi & Hh). exact (excl_holder s i st He Hi Hh).
  - intros i st bytes err Hi Hpc Ha.
    rewrite (exec_stream _ _ _ _ _ Hi). unfold Server.stream_step.
    rewrite Hpc, Ha. reflexivity.
  - intros i st bytes err Hi Hpc Ha s'. unfold s'.
    rewrite (exec_stream _ _ _ _ _ Hi). unfold Server.stream_step.
    rewrite Hpc, Ha. simpl. split; [reflexivity|].
    apply list_lookup_insert_eq. now apply lookup_lt_Some in Hi.
Qed.

End Exclusivity.

(** ** Streamers that are turned away *)

Section Unauthorized.
Import Server.
Local Open Scope string_scope.
Variable DecodeString : string -> option string.
Variable Authenticate : string -> string -> bool * option NickServAuth.error.

Abbreviation stream_step := (stream_step DecodeString Authenticate).
Abbreviation exec := (exec DecodeString Authenticate).

Lemma set_streamActive_id g : set_streamActive (streamActive g) g = g.
Proof. now destruct g. Qed.

Lemma set_streamActive_twice b b' g :
  set_streamActive b (set_streamActive b' g) = set_streamActive b g.
Proof. reflexivity. Qed.

(** The credentials step of a streamer without credentials, or with
    credentials that [Authenticate] turns down, in any state of the
    server: the answer is 401 and only [streamActive] is written. *)
Lemma stream_step_unauthorized i bytes err g st :
  s_pc st = S_auth -> unauthorized DecodeString Authenticate (s_req st) ->
  exists msg,
    stream_step i bytes err g st
    = (set_streamActive false g, s_fail msg StatusUnauthorized st).
Proof.
  unfold unauthorized, Server.stream_step. intros -> H.
  destruct (credentials DecodeString (s_req st)) as [[user pass] [|]];
    simpl in *; [|eauto].
  destruct (Authenticate user pass) as [valid aerr]. simpl in *.
  rewrite H. eauto.
Qed.

(** C7.  A streamer that is admitted by the compare-and-swap and whose
    credentials are missing or are rejected by [Authenticate] is answered
    401; after its two steps [streamActive] is clear again and every
    package-level variable (context and cancel function, [firstData] and
    its [Once], ring buffer, listeners and their channels) has the value
    it had before the request; no other goroutine is touched.  Step by
    step: the admission writes [streamActive] only, and so does the
    rejection, in whatever state it runs. *)
Theorem C7_unauthorized_releases (s : Sys) (i : nat) (st : streamer)
    (bytes bytes' : list byte) (err err' : bool) :
  streamers s !! i = Some st -> s_pc st = S_cas ->
  streamActive (globals s) = false ->
  unauthorized DecodeString Authenticate (s_req st) ->
  let s1 := exec (AStream i bytes err) s in
  let s2 := exec (AStream i bytes' err') s1 in
  globals s1 = set_streamActive true (globals s)
  /\ globals s2 = globals s
  /\ (exists msg,
        streamers s2 = <[i := s_fail msg StatusUnauthorized st]> (streamers s))
  /\ listening s2 = listening s
  /\ (forall g, exists msg,
        stream_step i bytes' err' g (s_goto S_auth st)
        = (set_streamActive false g, s_fail msg StatusUnauthorized st)).
Proof.
  intros Hi Hpc Ha Hun s1 s2.
  assert (Hi' : (i < length (streamers s))%nat)
    by now apply lookup_lt_Some in Hi.
  assert (Hstep : forall g, exists msg,
             stream_step i bytes' err' g (s_goto S_auth st)
             = (set_streamActive false g, s_fail msg StatusUnauthorized st)).
  { intros g.
    destruct (stream_step_unauthorized i bytes' err' g (s_goto S_auth st)
                eq_refl Hun) as [msg Hmsg].
    exists msg. exact Hmsg. }
  assert (Hs1 : s1 = {| globals := set_streamActive true (globals s);
                        streamers := <[i := s_goto S_auth st]> (streamers s);
                        listening := listening s |}).
  { unfold s1, Server.exec. rewrite Hi. unfold Server.stream_step.
    now rewrite Hpc, Ha. }
  destruct (Hstep (set_streamActive true (globals s))) as [msg Hmsg].
  assert (Hs2 : s2 = {| globals := globals s;
                        streamers :=
                          <[i := s_fail msg StatusUnauthorized st]>
                            (streamers s);
                        listening := listening s |}).
  { unfold s2. rewrite Hs1. unfold Server.exec. simpl.
    rewrite list_lookup_insert_eq by done.
    rewrite Hmsg, list_insert_insert_eq, set_streamActive_twice.
    now rewrite <- Ha, set_streamActive_id. }
  rewrite Hs1, Hs2. simpl. repeat split; eauto.
Qed.

End Unauthorized.

(** ** The cancellation token of a listener *)

Section Token.
Import Server.
Local Open Scope nat_scope.
Variable DecodeString : string -> option string.
Variable Authenticate : string -> string -> bool * option NickServAuth.error.

Abbreviation stream_step := (stream_step DecodeString Authenticate).
Abbreviation exec := (exec DecodeString Authenticate).
Abbreviation run := (run DecodeString Authenticate).

Lemma fired_insert cs k c :
  fired (<[k := true]> cs) c = true -> fired cs c = true \/ k = c.
Proof.
  unfold fired. destruct (decide (k = c)) as [->|Hne]; [auto|].
  rewrite list_lookup_insert_ne by done. auto.
Qed.

Lemma fired_app_l cs cs' c :
  c < length cs -> fired (cs ++ cs') c = fired cs c.
Proof. intros H. unfold fired. now rewrite lookup_app_l. Qed.

Lemma length_cancel fn cs : length (cancel fn cs) = length cs.
Proof. destruct fn; simpl; [apply length_insert | done]. Qed.

Lemma fired_cancel fn cs c :
  fired (cancel fn cs) c = true -> fired cs c = true \/ fn = Some c.
Proof.
  destruct fn as [k|]; simpl; [|auto].
  intros H. destruct (fired_insert _ _ _ H); subst; auto.
Qed.

Lemma ctx_step_same g g' :
  ctxs g' = ctxs g -> streamCtx g' = streamCtx g -> ctx_step g g'.
Proof. intros H1 H2. unfold ctx_step. rewrite H1, H2. auto. Qed.

Lemma ctx_step_new g : ctx_step g (newStreamCtx g).
Proof.
  unfold ctx_step, newStreamCtx. simpl.
  rewrite length_app, !length_cancel. simpl. repeat split; [lia | auto |].
  intros c Hc Hf. rewrite fired_app_l in Hf by now rewrite length_cancel.
  now apply fired_cancel.
Qed.

Lemma ctx_step_cancel g :
  ctx_step g (set_ctx (streamCancelFn g) (streamCtx g)
                (cancel (streamCancelFn g) (ctxs g)) g).
Proof.
  unfold ctx_step. simpl. rewrite length_cancel. repeat split; [lia | auto |].
  intros c _ Hf. now apply fired_cancel.
Qed.

Lemma stream_step_ctx i bytes err g st :
  ctx_step g (stream_step i bytes err g st).1.
Proof.
  unfold Server.stream_step.
  destruct (s_pc st); repeat case_match; simpl;
    first [ apply ctx_step_new | apply ctx_step_cancel
          | now apply ctx_step_same
          | apply ctx_step_same;
            [apply ctxs_ringAppend | apply streamCtx_ringAppend] ].
Qed.

Lemma listen_step_ctx c werr v g l :
  ctx_step g (listen_step c werr v g l).1.
Proof.
  unfold listen_step. repeat case_match; now apply ctx_step_same.
Qed.

Lemma exec_ctx a s : ctx_step (globals s) (globals (exec a s)).
Proof.
  destruct a as [i bytes err | j c werr]; unfold Server.exec.
  - destruct (streamers s !! i) as [st|]; [|now apply ctx_step_same].
    pose proof (stream_step_ctx i bytes err (globals s) st).
    now destruct (stream_step _ _ _ _ _).
  - destruct (listening s !! j) as [l|]; [|now apply ctx_step_same].
    pose proof (listen_step_ctx c werr (view (streamers s)) (globals s) l).
    now destruct (listen_step _ _ _ _ _).
Qed.

(** A step of a listener keeps the context it has captured. *)
Lemma listen_step_token c werr v g l :
  let l' := (listen_step c werr v g l).2 in
  if captured l then l_ctx l' = l_ctx l /\ captured l' = true
  else l_ctx l' = streamCtx g /\ l_pc l' = L_enter.
Proof.
  unfold listen_step, captured.
  destruct (l_pc l) eqn:Hpc; simpl;
    repeat (case_match; simpl; rewrite ?Hpc); auto; discriminate.
Qed.

Lemma tokens_ok_init reqs n : tokens_ok (init reqs n).
Proof.
  split; simpl; [lia|]. intros j l Hl.
  apply lookup_replicate in Hl as [-> _]. done.
Qed.

Lemma tokens_ok_exec a s : tokens_ok s -> tokens_ok (exec a s).
Proof.
  intros [Hcur Hl]. pose proof (exec_ctx a s) as (Hlen & Hnew & _).
  assert (Hcur' : streamCtx (globals (exec a s))
                  < length (ctxs (globals (exec a s)))).
  { destruct a as [i bytes err | j c werr]; unfold Server.exec in *.
    - destruct (streamers s !! i) as [st|]; [|done].
      unfold Server.stream_step in *.
      destruct (s_pc st); repeat case_match; simpl in *;
        rewrite ?length_app, ?length_cancel; simpl; try lia;
        simplify_eq; simpl in *;
        rewrite ?length_cancel, ?streamCtx_ringAppend, ?ctxs_ringAppend;
        lia.
    - destruct (listening s !! j) as [l|]; [|done].
      unfold listen_step in *.
      repeat case_match; simplify_eq; simpl in *; lia. }
  split; [exact Hcur'|].
  intros j l Hj Hc.
  destruct a as [i bytes err | j' c werr]; unfold Server.exec in *.
  - destruct (streamers s !! i) as [st|]; [|eauto].
    destruct (stream_step _ _ _ _ _) as [g' st']. simpl in *.
    specialize (Hl j l Hj Hc). lia.
  - destruct (listening s !! j') as [l0|] eqn:Hj'; [|eauto].
    pose proof (listen_step_token c werr (view (streamers s)) (globals s) l0)
      as Htok.
    destruct (listen_step _ _ _ _ _) as [g' l'] eqn:Hstep. simpl in *.
    destruct (decide (j = j')) as [->|Hne].
    + rewrite list_lookup_insert_eq in Hj by now apply lookup_lt_Some in Hj'.
      injection Hj as <-.
      destruct (captured l0) eqn:Hc0.
      * destruct Htok as [-> _]. specialize (Hl j' l0 Hj' Hc0). lia.
      * destruct Htok as [-> _]. lia.
    + rewrite list_lookup_insert_ne in Hj by done.
      specialize (Hl j l Hj Hc). lia.
Qed.

Lemma tokens_ok_run sch reqs n : tokens_ok (run sch (init reqs n)).
Proof.
  induction sch as [|a sch IH] using rev_ind.
  - apply tokens_ok_init.
  - unfold Server.run. rewrite foldl_snoc. now apply tokens_ok_exec.
Qed.

(** C4 (amended).  A listener captures the current context when it is
    admitted, and from then on: the captured context never changes; it
    is an existing context, so the context that a later session creates
    is another one; it becomes cancelled only through the cancel function
    of that very context; and the listener leaves a [select] through the
    cancellation case only when the captured context is cancelled.  The
    gate is not captured with it: the listener waits on the channel that
    [firstData] holds when it enters the [select]. *)
Theorem C4_token_captured (reqs : list Request) (n : nat)
    (sch : list action) (j : nat) (l : listener) :
  let s := run sch (init reqs n) in
  listening s !! j = Some l ->
  (l_pc l = L_capture -> forall c werr,
      listening (exec (AListen j c werr) s) !! j
      = Some (l_goto L_enter (l_set_ctx (streamCtx (globals s)) l)))
  /\ (l_pc l = L_enter -> forall c werr,
        listening (exec (AListen j c werr) s) !! j
        = Some (l_goto (L_wait (firstData (globals s))) l))
  /\ (captured l = true ->
      l_ctx l < length (ctxs (globals s))
      /\ (forall a,
            let s' := exec a s in
            (exists l', listening s' !! j = Some l'
                        /\ l_ctx l' = l_ctx l /\ captured l' = true)
            /\ (fired (ctxs (globals s')) (l_ctx l) = true ->
                fired (ctxs (globals s)) (l_ctx l) = true
                \/ streamCancelFn (globals s) = Some (l_ctx l))
            /\ (streamCtx (globals s') = streamCtx (globals s)
                \/ l_ctx l < streamCtx (globals s')))
      /\ (forall gate werr v g,
            l_pc l = L_wait gate \/ l_pc l = L_loop ->
            fired (ctxs g) (l_ctx l) = false ->
            listen_step CaseStream werr v g l = (g, l))).
Proof.
  intros s Hj.
  assert (Hlt : j < length (listening s)) by now apply lookup_lt_Some in Hj.
  split; [|split].
  - intros Hpc c werr. rewrite (exec_listen _ _ _ _ _ _ _ Hj). simpl.
    rewrite list_lookup_insert_eq by done.
    unfold listen_step. now rewrite Hpc.
  - intros Hpc c werr. rewrite (exec_listen _ _ _ _ _ _ _ Hj). simpl.
    rewrite list_lookup_insert_eq by done.
    unfold listen_step. now rewrite Hpc.
  - intros Hc. destruct (tokens_ok_run sch reqs n) as [Hcur Hl].
    fold s in Hcur, Hl. specialize (Hl j l Hj Hc).
    split; [exact Hl|]. split.
    + intros a s'. destruct (exec_ctx a s) as (Hlen & Hnew & Hfire).
      fold s' in Hlen, Hnew, Hfire. split; [|split].
      * destruct a as [i bytes err | j' c werr]; unfold s', Server.exec.
        -- destruct (streamers s !! i) as [st|]; [|eauto].
           destruct (stream_step _ _ _ _ _). simpl. eauto.
        -- destruct (listening s !! j') as [l0|] eqn:Hj'; [|eauto].
           pose proof (listen_step_token c werr (view (streamers s))
                         (globals s) l0) as Htok.
           destruct (listen_step _ _ _ _ _) as [g' l']. simpl in *.
           destruct (decide (j = j')) as [<-|Hne].
           ++ rewrite list_lookup_insert_eq by done.
              rewrite Hj in Hj'. injection Hj' as <-.
              rewrite Hc in Htok. destruct Htok. eauto.
           ++ rewrite list_lookup_insert_ne by done. eauto.
      * intros Hf. now apply Hfire.
      * destruct Hnew as [->|Hnew]; [auto | right; lia].
    + intros gate werr v g Hpc Hf. unfold listen_step.
      destruct Hpc as [-> | ->]; now rewrite Hf.
Qed.

(** [resetStreamState] leaves a gate that has not fired and a context
    that is not cancelled. *)
Lemma resetStreamState_unfired g :
  let g' := resetStreamState g in
  fired (gates g') (firstData g') = false
  /\ fired (ctxs g') (streamCtx g') = false.
Proof.
  unfold resetStreamState, newStreamCtx, fired. simpl. split.
  - now rewrite lookup_app_r, Nat.sub_diag.
  - now rewrite lookup_app_r, Nat.sub_diag.
Qed.

(** A listener whose gate has not fired and whose context is not
    cancelled stays in its first [select] until its client goes away. *)
Lemma idle_listener_blocks s j l gate werr :
  listening s !! j = Some l -> l_pc l = L_wait gate ->
  fired (gates (globals s)) gate = false ->
  fired (ctxs (globals s)) (l_ctx l) = false ->
  exec (AListen j CaseData werr) s = s
  /\ exec (AListen j CaseStream werr) s = s.
Proof.
  intros Hj Hpc Hg Hc. unfold Server.exec, listen_step.
  rewrite Hj, Hpc, Hg, Hc. rewrite list_insert_id by done.
  now destruct s.
Qed.

End Token.

(** ** The registry of listeners and the fan-out *)

Section Registry.
Import Server.
Local Open Scope nat_scope.
Variable DecodeString : string -> option string.
Variable Authenticate : string -> string -> bool * option NickServAuth.error.

Abbreviation exec := (exec DecodeString Authenticate).
Abbreviation run := (run DecodeString Authenticate).

(** A loop over the keys of [listeners] that updates each channel once. *)
Lemma foldr_alter_lookup (f : chan -> chan) (keys : list nat)
    (cs : list chan) (ch : nat) :
  NoDup keys ->
  foldr (fun k cs => alter f k cs) cs keys !! ch
  = if decide (ch ∈ keys) then f <$> cs !! ch else cs !! ch.
Proof.
  induction keys as [|k keys IH]; intros Hnd; simpl.
  - destruct (decide (ch ∈ [])) as [H|_]; [|done]. now apply elem_of_nil in H.
  - apply NoDup_cons in Hnd as [Hk Hnd]. specialize (IH Hnd).
    destruct (decide (ch = k)) as [->|Hne].
    + rewrite list_lookup_alter_eq, IH.
      rewrite (decide_False (P := k ∈ keys)) by done.
      rewrite (decide_True (P := k ∈ k :: keys)) by left. done.
    + rewrite list_lookup_alter_ne by done. rewrite IH.
      destruct (decide (ch ∈ keys)) as [H|H].
      * rewrite (decide_True (P := ch ∈ k :: keys)) by now right. done.
      * rewrite (decide_False (P := ch ∈ k :: keys)); [done|].
        intros H'. apply elem_of_cons in H' as [?|?]; done.
Qed.

(** The fan-out of [broadcast], channel by channel: a registered channel
    with room gets the slice at the end of its queue, a registered
    channel that is full keeps its queue, a channel that is not
    registered is not touched, and nothing else changes.  The loop is a
    function: it always ends. *)
Lemma fanout_spec (data : slice) (g : Globals) (ch : nat) :
  chans (fanout data g) !! ch
  = (if decide (ch ∈ listeners g) then trySend data <$> chans g !! ch
     else chans g !! ch)
  /\ fanout data g = set_listeners (listeners g) (chans (fanout data g)) g.
Proof.
  split; [|reflexivity]. unfold fanout. simpl.
  rewrite foldr_alter_lookup by apply NoDup_elements.
  destruct (decide (ch ∈ listeners g)) as [H|H].
  - rewrite decide_True by now apply elem_of_elements. done.
  - rewrite decide_False; [done|]. now rewrite elem_of_elements.
Qed.

Lemma trySend_room (data : slice) (c : chan) :
  closed c = false -> length (queue c) < chanCap ->
  trySend data c = {| queue := queue c ++ [data]; closed := false |}.
Proof.
  intros Hc Hlen. unfold trySend. rewrite Hc.
  now rewrite (proj2 (Nat.ltb_lt _ _) Hlen).
Qed.

Lemma trySend_full (data : slice) (c : chan) :
  chanCap <= length (queue c) -> trySend data c = c.
Proof.
  intros Hlen. unfold trySend. destruct (closed c); [done|].
  now rewrite (proj2 (Nat.ltb_ge _ _) Hlen).
Qed.

Lemma closed_trySend (data : slice) (c : chan) :
  closed (trySend data c) = closed c.
Proof.
  unfold trySend. destruct (closed c) eqn:Hc; [done|].
  now destruct (length (queue c) <? chanCap).
Qed.

Lemma registered_open_init reqs n : registered_open (globals (init reqs n)).
Proof. intros ch Hch. simpl in Hch. now apply elem_of_empty in Hch. Qed.

Lemma registered_open_fanout data g :
  registered_open g -> registered_open (fanout data g).
Proof.
  intros H ch Hch. simpl in Hch. destruct (H ch Hch) as (c & Hc & Hopen).
  exists (trySend data c). split.
  - rewrite (proj1 (fanout_spec data g ch)).
    destruct (decide (ch ∈ listeners g)); [|done]. now rewrite Hc.
  - now rewrite closed_trySend.
Qed.

Lemma registered_open_same g g' :
  listeners g' = listeners g -> chans g' = chans g ->
  registered_open g -> registered_open g'.
Proof. intros Hl Hc H ch. rewrite Hl, Hc. apply H. Qed.

Lemma registered_open_clear g : registered_open (clearListeners g).
Proof. intros ch Hch. simpl in Hch. now apply elem_of_empty in Hch. Qed.

Lemma registered_open_register g :
  registered_open g ->
  registered_open
    (registerListener (length (chans g))
       (set_listeners (listeners g) (chans g ++ [make_chan]) g)).
Proof.
  intros H ch Hch. simpl in *.
  apply elem_of_union in Hch as [Hch|Hch].
  - apply elem_of_singleton in Hch as ->. exists make_chan.
    split; [|done]. now rewrite lookup_app_r, Nat.sub_diag.
  - destruct (H ch Hch) as (c & Hc & Hopen). exists c. split; [|done].
    rewrite lookup_app_l; [done|]. now apply lookup_lt_Some in Hc.
Qed.

Lemma registered_open_unregister ch g :
  registered_open g -> registered_open (unregisterListener ch g).
Proof.
  intros H k Hk. simpl in *. apply elem_of_difference in Hk as [Hk _].
  now apply H.
Qed.

Lemma registered_open_receive g k c rest :
  chans g !! k = Some c ->
  registered_open g ->
  registered_open
    (set_listeners (listeners g)
       (<[k := {| queue := rest; closed := closed c |}]> (chans g)) g).
Proof.
  intros Hk H ch Hch. simpl in *. destruct (H ch Hch) as (c' & Hc' & Hopen).
  destruct (decide (ch = k)) as [->|Hne].
  - rewrite list_lookup_insert_eq by now apply lookup_lt_Some in Hk.
    eexists. split; [done|]. simpl. congruence.
  - rewrite list_lookup_insert_ne by done. eauto.
Qed.

Lemma registered_open_exec a s :
  registered_open (globals s) -> registered_open (globals (exec a s)).
Proof.
  intros H. destruct a as [i bytes err | j c werr]; unfold Server.exec.
  - destruct (streamers s !! i) as [st|]; [|done].
    unfold Server.stream_step.
    destruct (s_pc st); repeat case_match; simplify_eq; simpl;
      first [ now apply registered_open_fanout
            | apply registered_open_clear
            | now apply (registered_open_same (globals s))
            | now apply (registered_open_same (globals s));
              [apply listeners_ringAppend | apply chans_ringAppend |] ].
  - destruct (listening s !! j) as [l|]; [|done].
    unfold listen_step.
    destruct (l_pc l); repeat case_match; simplify_eq; simpl;
      first [ now apply registered_open_register
            | now apply registered_open_unregister
            | now eapply registered_open_receive
            | now apply (registered_open_same (globals s))
            | done ].
Qed.

(** [broadcast] never sends on a closed channel: in every state that an
    interleaving reaches, the registered channels exist and are open. *)
Lemma registered_open_run sch reqs n :
  registered_open (globals (run sch (init reqs n))).
Proof.
  induction sch as [|a sch IH] using rev_ind.
  - apply registered_open_init.
  - unfold Server.run. rewrite foldl_snoc. now apply registered_open_exec.
Qed.

End Registry.

(** ** The ring buffer in the running server *)

Section RingInServer.
Import Server.
Local Open Scope nat_scope.
Variable DecodeString : string -> option string.
Variable Authenticate : string -> string -> bool * option NickServAuth.error.

Abbreviation stream_step := (stream_step DecodeString Authenticate).
Abbreviation exec := (exec DecodeString Authenticate).
Abbreviation run := (run DecodeString Authenticate).

(** A chunk that is no longer than the capacity keeps the buffer within
    the capacity. *)
Lemma ringWrite_bounded cap (buf data : list byte) :
  (Ring.len data <= cap)%Z ->
  (Ring.len (Ring.ringWrite cap buf data) <= Z.max cap (Ring.len buf))%Z.
Proof.
  intros Hd. rewrite ringWrite_spec, suffix_lastn.
  unfold Ring.len in *. rewrite length_app, lastn_length. lia.
Qed.

Lemma listen_step_ring c werr v g l :
  ringBuffer (listen_step c werr v g l).1 = ringBuffer g.
Proof. unfold listen_step. repeat case_match; reflexivity. Qed.

Lemma ringWrite_within cap (buf data : list byte) :
  (Ring.len buf <= cap)%Z -> (Ring.len data <= cap)%Z ->
  (Ring.len (Ring.ringWrite cap buf data) <= cap)%Z.
Proof. intros Hb Hd. pose proof (ringWrite_bounded cap buf data Hd). lia. Qed.

Lemma stream_step_buf i bytes err g st :
  length (s_buf st) <= 1024 ->
  length (s_buf (stream_step i bytes err g st).2) <= 1024.
Proof.
  intros Hb. unfold Server.stream_step.
  destruct (s_pc st) eqn:Hpc; repeat case_match; simplify_eq; simpl;
    rewrite ?length_replicate, ?length_app, ?length_drop;
    repeat match goal with
           | H : (_ <=? _) = true |- _ => apply Nat.leb_le in H
           end;
    lia.
Qed.

Lemma stream_step_ring i bytes err g st :
  (Ring.len (ringBuffer g) <= Ring.maxRingBufferSize)%Z ->
  length (s_buf st) <= 1024 ->
  (Ring.len (ringBuffer (stream_step i bytes err g st).1)
   <= Ring.maxRingBufferSize)%Z.
Proof.
  intros Hr Hb. unfold Server.stream_step.
  destruct (s_pc st) eqn:Hpc; repeat case_match; simplify_eq; simpl;
    try exact Hr; try done.
  rewrite ringBuffer_ringAppend. apply ringWrite_within; [exact Hr|].
  unfold Ring.len, Ring.maxRingBufferSize. rewrite length_take. lia.
Qed.

Lemma stream_step_ring_ok i bytes err g st :
  (Ring.len (ringBuffer g) <= Ring.maxRingBufferSize)%Z ->
  length (s_buf st) <= 1024 ->
  (Ring.len (ringBuffer (stream_step i bytes err g st).1)
   <= Ring.maxRingBufferSize)%Z
  /\ length (s_buf (stream_step i bytes err g st).2) <= 1024.
Proof.
  intros Hr Hb. split;
    [now apply stream_step_ring | now apply stream_step_buf].
Qed.

Lemma ring_ok_init reqs n : ring_ok (init reqs n).
Proof.
  split; [done|]. intros i st Hi. simpl in Hi.
  rewrite list_lookup_fmap in Hi.
  destruct (reqs !! i); simpl in Hi; [|done].
  injection Hi as <-. simpl. lia.
Qed.

Lemma ring_ok_exec a s : ring_ok s -> ring_ok (exec a s).
Proof.
  intros [Hr Hb]. destruct a as [i bytes err | j c werr]; unfold Server.exec.
  - destruct (streamers s !! i) as [st|] eqn:Hi; [|by split].
    destruct (stream_step_ring_ok i bytes err (globals s) st Hr (Hb i st Hi))
      as [Hr' Hb'].
    destruct (stream_step i bytes err (globals s) st) as [g' st'].
    split; [exact Hr'|]. simpl. intros k stk Hk.
    destruct (decide (k = i)) as [->|Hne].
    + rewrite list_lookup_insert_eq in Hk by now apply lookup_lt_Some in Hi.
      now injection Hk as <-.
    + rewrite list_lookup_insert_ne in Hk by done. exact (Hb k stk Hk).
  - destruct (listening s !! j) as [l|]; [|by split].
    pose proof (listen_step_ring c werr (view (streamers s)) (globals s) l)
      as Hring.
    destruct (listen_step _ _ _ _ _) as [g' l']. simpl in *.
    split; simpl; [now rewrite Hring | exact Hb].
Qed.

(** In the running server the recent audio never exceeds 128 KB: the
    streamer reads at most 1024 bytes at a time. *)
Lemma ring_ok_run sch reqs n : ring_ok (run sch (init reqs n)).
Proof.
  induction sch as [|a sch IH] using rev_ind.
  - apply ring_ok_init.
  - unfold Server.run. rewrite foldl_snoc. now apply ring_ok_exec.
Qed.

End RingInServer.

(** ** Scenarios *)

Section Scenarios.
Import Server Scenario.
Local Open Scope nat_scope.

(** C4 as stated fails.  Listener 0 captures its context during the
    session of streamer 0, when [firstData] is gate 0.  That session ends
    and streamer 1 begins the next one before the listener enters its
    [select]: it then waits on gate 1, made by [resetStreamState] after
    its admission, is woken by the first bytes of streamer 1, registers,
    and is sent the data of that session. *)
Lemma C4_counterexample :
  let s1 := run (connect 0) (init [dj; dj] 1) in
  let s2 := exec (go 0) s1 in
  let s3 := run (disconnect 0 ["A"%byte] ++ connect 1
                 ++ [read 1 ["B"%byte] false; step 1; go 0]) s2 in
  let s4 := exec (go 0) s3 in
  let s5 := run ([step 1; step 1; go 0; go 0] ++ send 0) s4 in
  (firstData (globals s1) = 0 /\ streamCtx (globals s1) = 1)
  /\ (l_ctx <$> listening s2 !! 0) = Some 1
  /\ fired (gates (globals s3)) 0 = true
  /\ (l_pc <$> listening s3 !! 0) = Some (L_wait 1)
  /\ (l_pc <$> listening s4 !! 0) = Some L_active
  /\ (l_out <$> listening s5 !! 0) = Some ["B"%byte].
Proof. vm_compute. repeat split. Qed.

(** C6, part (c), fails.  Streamer 0 sends one chunk and disconnects while
    listener 0 is registered.  After the deferred function: the channel of
    listener 0 is closed, its context is cancelled and it terminates;
    [streamActive] is clear, and a second streamer is admitted.  But
    listener 1, which connects before any new streamer, is not answered
    503: it blocks in its [select], where neither the new gate nor the new
    context lets it through, and when its client goes away it ends
    without an answer. *)
Theorem C6_listener_after_session_blocks :
  let s1 := run (connect 0 ++ publish 0 ["X"%byte] ++ join 0
                 ++ disconnect 0 ["Y"%byte]) (init [dj; dj] 2) in
  let s2 := run [go 1; go 1] s1 in
  (* (a) *)
  (closed <$> chans (globals s1) !! 0) = Some true
  /\ listeners (globals s1) = ∅
  /\ (l_pc <$> listening (run [stop 0; go 0] s1) !! 0) = Some L_done
  (* (b) *)
  /\ streamActive (globals s1) = false
  /\ (s_pc <$> streamers (exec (step 1) s1) !! 1) = Some S_auth
  (* (c) *)
  /\ listening s2 !! 1
     = Some {| l_pc := L_wait 1; l_ctx := 2; l_ch := 0; l_error := None;
               l_out := [] |}
  /\ fired (gates (globals s2)) 1 = false
  /\ fired (ctxs (globals s2)) 2 = false
  /\ exec (go 1) s2 = s2
  /\ exec (stop 1) s2 = s2
  /\ listening (exec (leave 1) s2) !! 1
     = Some {| l_pc := L_done; l_ctx := 2; l_ch := 0; l_error := None;
               l_out := [] |}.
Proof. vm_compute. repeat split. Qed.

(** C5 fails on what the listener is sent.  Listener 0 is registered with
    an empty channel; streamer 0 reads and broadcasts the chunk "A", then
    the chunk "B", both into the same [buf]; both sends find room.  The
    listener then takes the two slices from its channel and writes them:
    each is a view of [buf], which now holds "B", and it writes "B" twice,
    after the "X" it got from the ring buffer. *)
Theorem C5_chunk_overwritten :
  let s := run (connect 0 ++ publish 0 ["X"%byte] ++ join 0
                ++ publish 0 ["A"%byte] ++ publish 0 ["B"%byte])
             (init [dj] 1) in
  (queue <$> chans (globals s) !! 0)
  = Some [ {| sl_array := 0; sl_len := 1 |}; {| sl_array := 0; sl_len := 1 |} ]
  /\ ringBuffer (globals s) = ["X"; "A"; "B"]%byte
  /\ (l_out <$> listening (run (send 0 ++ send 0) s) !! 0)
     = Some ["X"; "B"; "B"]%byte.
Proof. vm_compute. repeat split. Qed.

(** Listener 0 registers, streamer 0 reads and broadcasts the chunk "A",
    and only then does the listener read the ring buffer: "A" is in the
    buffered data and in its channel, and is written twice. *)
Example boundary_chunk_twice :
  let s := run (connect 0 ++ publish 0 ["X"%byte] ++ register 0
                ++ publish 0 ["A"%byte] ++ send 0 ++ send 0)
             (init [dj] 1) in
  (l_out <$> listening s !! 0) = Some ["X"; "A"; "A"]%byte
  /\ (s_buf <$> streamers s !! 0) = Some (["A"%byte] ++ replicate 1023 x00).
Proof. vm_compute. repeat split. Qed.

End Scenarios.

(** ** Catching up with the stream *)

Section CatchUp.
Import Server Scenario.
Local Open Scope nat_scope.
Variable DecodeString : string -> option string.
Variable Authenticate : string -> string -> bool * option NickServAuth.error.
Variable r : Request.
Hypothesis Hauth : authorized DecodeString Authenticate r.

Abbreviation stream_step := (stream_step DecodeString Authenticate).
Abbreviation exec := (Server.exec DecodeString Authenticate).
Abbreviation run := (Server.run DecodeString Authenticate).

Lemma run_app sch sch' s : run (sch ++ sch') s = run sch' (run sch s).
Proof. apply foldl_app. Qed.

Lemma run_cons a sch s : run (a :: sch) s = run sch (exec a s).
Proof. reflexivity. Qed.

Lemma run_nil s : run [] s = s.
Proof. reflexivity. Qed.

Lemma exec_stream1 g st l bytes err :
  exec (AStream 0 bytes err) (sys1 g st l)
  = sys1 (stream_step 0 bytes err g st).1 (stream_step 0 bytes err g st).2 l.
Proof. unfold Server.exec, sys1. simpl. now destruct (stream_step _ _ _ _ _). Qed.


(** The streamer connects to the idle server and begins its session. *)
Lemma connect_run l :
  run (connect 0) (sys1 (resetStreamState zero) (new_streamer r) l)
  = sys1 (newStreamCtx (set_streamActive true (resetStreamState zero)))
      (mk r S_read (replicate 1024 x00)) l.
Proof.
  unfold connect, step. rewrite !run_cons, run_nil.
  rewrite exec_stream1.
  unfold Server.stream_step at 1 2. simpl s_pc. cbv iota.
  change (streamActive (resetStreamState zero)) with false. cbv iota.
  cbn [fst snd].
  rewrite exec_stream1.
  unfold Server.stream_step at 1 2. simpl s_pc. cbv iota.
  simpl s_req.
  unfold authorized in Hauth.
  destruct (credentials DecodeString r) as [[user pass] ok].
  destruct Hauth as [-> Hv]. rewrite Hv. simpl negb. cbv iota.
  rewrite bool_decide_eq_false_2 by (intros H; now apply H).
  simpl orb. cbv iota. cbn [fst snd].
  rewrite exec_stream1. reflexivity.
Qed.

Lemma step_read g B c err :
  chunk_ok c ->
  stream_step 0 c err g (mk r S_read B)
  = (g, mk r (S_once (length c) err) (c ++ drop (length c) B)).
Proof.
  intros [Hpos Hle]. unfold Server.stream_step. simpl.
  rewrite (proj2 (Nat.leb_le _ _) Hle).
  destruct (length c) eqn:Hn; [lia|]. reflexivity.
Qed.

Lemma step_once g n err B bytes e :
  firstDataOnce g = true \/ fired (gates g) (firstData g) = false ->
  stream_step 0 bytes e g (mk r (S_once n err) B)
  = (onceDo g, mk r (S_ring n err) B).
Proof.
  intros Hgate. unfold Server.stream_step, onceDo. simpl.
  destruct (firstDataOnce g); [reflexivity|].
  destruct Hgate as [?| ->]; [done | reflexivity].
Qed.

Lemma publish_run g B l c :
  chunk_ok c ->
  firstDataOnce g = true \/ fired (gates g) (firstData g) = false ->
  run (publish 0 c) (sys1 g (mk r S_read B) l)
  = sys1 (broadcast_g c g) (mk r S_read (c ++ drop (length c) B)) l.
Proof.
  intros Hc Hgate. unfold publish, read, step.
  rewrite !run_cons, run_nil.
  rewrite exec_stream1, (step_read _ _ _ _ Hc). cbn [fst snd].
  rewrite exec_stream1, (step_once _ _ _ _ _ _ Hgate). cbn [fst snd].
  rewrite exec_stream1. unfold Server.stream_step at 1 2. simpl s_pc.
  cbv iota. cbn [fst snd]. simpl s_buf. rewrite take_app_length.
  rewrite exec_stream1. reflexivity.
Qed.

Lemma fired_insert_eq (heap : list bool) i :
  i < length heap -> fired (<[i := true]> heap) i = true.
Proof. intros H. unfold fired. now rewrite list_lookup_insert_eq. Qed.

Lemma onceDo_streaming g :
  streaming g -> streaming (onceDo g) /\ firstDataOnce (onceDo g) = true.
Proof.
  intros [Ha Hg Hlt]. unfold onceDo.
  destruct (firstDataOnce g) eqn:Ho.
  { split; [split|]; try done. now rewrite Ho. }
  split; [split|]; simpl; try done.
  - now apply fired_insert_eq.
  - now rewrite length_insert.
Qed.

Lemma onceDo_gate g :
  streaming g ->
  firstDataOnce g = true \/ fired (gates g) (firstData g) = false.
Proof. intros [_ Hg _]. rewrite Hg. destruct (firstDataOnce g); auto. Qed.

Lemma broadcast_streaming c g :
  streaming g ->
  streaming (broadcast_g c g) /\ firstDataOnce (broadcast_g c g) = true.
Proof.
  intros H. destruct (onceDo_streaming g H) as [[Ha Hg Hlt] Ho].
  unfold broadcast_g. split; [split|]; simpl; ring_append; done.
Qed.

Lemma ringBuffer_onceDo g : ringBuffer (onceDo g) = ringBuffer g.
Proof. unfold onceDo. now destruct (firstDataOnce g). Qed.

Lemma listeners_onceDo g : listeners (onceDo g) = listeners g.
Proof. unfold onceDo. now destruct (firstDataOnce g). Qed.

Lemma chans_onceDo g : chans (onceDo g) = chans g.
Proof. unfold onceDo. now destruct (firstDataOnce g). Qed.

Lemma streamCtx_onceDo g : streamCtx (onceDo g) = streamCtx g.
Proof. unfold onceDo. now destruct (firstDataOnce g). Qed.

Lemma ringBuffer_broadcast c g :
  ringBuffer (broadcast_g c g)
  = Ring.ringWrite Ring.maxRingBufferSize (ringBuffer g) c.
Proof. simpl. now rewrite ringBuffer_ringAppend, ringBuffer_onceDo. Qed.

Lemma listeners_broadcast c g : listeners (broadcast_g c g) = listeners g.
Proof. simpl. rewrite listeners_ringAppend. apply listeners_onceDo. Qed.

Lemma streamCtx_broadcast c g : streamCtx (broadcast_g c g) = streamCtx g.
Proof. simpl. rewrite streamCtx_ringAppend. apply streamCtx_onceDo. Qed.

Lemma chans_broadcast_empty c g :
  listeners g = ∅ -> chans (broadcast_g c g) = chans g.
Proof.
  intros H. simpl.
  rewrite listeners_ringAppend, listeners_onceDo, H, elements_empty. simpl.
  rewrite chans_ringAppend. apply chans_onceDo.
Qed.


Lemma publishes_run cs : forall g B l,
  streaming g -> Forall chunk_ok cs ->
  exists g' B',
    run (publishes 0 cs) (sys1 g (mk r S_read B) l) = sys1 g' (mk r S_read B') l
    /\ streaming g'
    /\ ringBuffer g'
       = foldl (Ring.ringWrite Ring.maxRingBufferSize) (ringBuffer g) cs
    /\ listeners g' = listeners g
    /\ (listeners g = ∅ -> chans g' = chans g)
    /\ streamCtx g' = streamCtx g
    /\ (cs <> [] -> firstDataOnce g' = true).
Proof.
  induction cs as [|c cs IH]; intros g B l Hs Hcs.
  - exists g, B. repeat split; try done. apply Hs. apply Hs. apply Hs.
  - apply Forall_cons in Hcs as [Hc Hcs].
    unfold publishes. rewrite bind_cons, run_app.
    rewrite (publish_run _ _ _ _ Hc (onceDo_gate g Hs)).
    destruct (broadcast_streaming c g Hs) as [Hs' Ho'].
    destruct (IH (broadcast_g c g) (c ++ drop (length c) B) l Hs' Hcs)
      as (g' & B' & Hrun & Hs'' & Hring & Hlis & Hch & Hctx & Honce).
    exists g', B'. split; [exact Hrun|]. split; [exact Hs''|].
    split; [|split; [|split; [|split]]].
    + rewrite Hring, ringBuffer_broadcast. reflexivity.
    + now rewrite Hlis, listeners_broadcast.
    + intros He. rewrite Hch by now rewrite listeners_broadcast.
      now apply chans_broadcast_empty.
    + now rewrite Hctx, streamCtx_broadcast.
    + intros _. destruct cs as [|c' cs]; [|now apply Honce].
      unfold publishes in Hrun. simpl in Hrun. injection Hrun as <- _.
      exact Ho'.
Qed.










Lemma streaming_connected :
  streaming (newStreamCtx (set_streamActive true (resetStreamState zero))).
Proof. split; [reflexivity | reflexivity | simpl; lia]. Qed.


(** The server after the streamer has connected and published [cs]. *)
Lemma published_run cs l :
  Forall chunk_ok cs ->
  exists g B,
    run (connect 0 ++ publishes 0 cs) (sys1 (resetStreamState zero)
                                         (new_streamer r) l)
    = sys1 g (mk r S_read B) l
    /\ streaming g
    /\ ringBuffer g = Ring.ringWrites Ring.maxRingBufferSize cs
    /\ listeners g = ∅ /\ chans g = []
    /\ (cs <> [] -> firstDataOnce g = true).
Proof.
  intros Hcs. rewrite run_app, connect_run.
  destruct (publishes_run cs _ (replicate 1024 x00) l streaming_connected Hcs)
    as (g & B & Hrun & Hs & Hring & Hlis & Hch & _ & Honce).
  exists g, B. split; [exact Hrun|]. split; [exact Hs|].
  split; [exact Hring|]. split; [exact Hlis|]. split; [|exact Honce].
  now apply Hch.
Qed.










End CatchUp.

Section CatchUpAtCapacity.
Import Server Scenario.
Local Open Scope nat_scope.

Lemma authorized_dj : authorized DecodeString0 Authenticate0 dj.
Proof. split; reflexivity. Qed.






Lemma Some_eq_inv {A} (x y : A) : Some x = Some y -> x = y.
Proof. congruence. Qed.












End CatchUpAtCapacity.

(** ** The theorems at work *)

Section Witnesses.
Import Server Scenario.
Local Open Scope nat_scope.
Local Open Scope string_scope.

(** Witness of C2: while the first streamer is attached, the second is
    answered 409 and nothing else moves. *)
Lemma C2_exclusive_streamer_witness :
  let s := run (connect 0) (init [dj; dj] 1) in
  exec (step 1) s
  = {| globals := globals s;
       streamers :=
         <[1 := s_fail "Stream already active" StatusConflict
                  (new_streamer dj)]> (streamers s);
       listening := listening s |}.
Proof.
  intros s.
  exact (proj1 (proj2 (proj2
           (C2_exclusive_streamer DecodeString0 Authenticate0
              [dj; dj] 1 (connect 0))))
           1 (new_streamer dj) [] false eq_refl eq_refl eq_refl).
Defined.


(** Witness of C4 (amended): a listener that captured context 1. *)
Lemma C4_token_captured_witness :
  let s := run (connect 0 ++ [go 0]) (init [dj] 1) in
  1 < length (ctxs (globals s)).
Proof.
  intros s.
  exact (proj1 (proj2 (proj2
           (C4_token_captured DecodeString0 Authenticate0 [dj] 1
              (connect 0 ++ [go 0]) 0 (lis L_enter 1 0 []) eq_refl))
           eq_refl)).
Defined.

(** Witness of C7: a streamer without credentials, on the idle server. *)
Lemma C7_unauthorized_releases_witness :
  let s := init [anonymous] 1 in
  globals (exec (step 0) (exec (step 0) s)) = globals s.
Proof.
  intros s.
  exact (proj1 (proj2
           (C7_unauthorized_releases DecodeString0 Authenticate0 s 0
              (new_streamer anonymous) [] [] false false
              eq_refl eq_refl eq_refl I))).
Defined.

(** Witness of C10: the secret keeps its colons. *)
Lemma C10_credentials_first_colon_witness :
  credentials DecodeString0
    {| Authorization := ""; XSourcePassword := "dj:pw:x";
       QueryPassword := "" |}
  = ("dj", "pw:x", true).
Proof.
  exact (proj1 (proj2 (C10_credentials_first_colon DecodeString0
                         Authenticate0))
           {| Authorization := ""; XSourcePassword := "dj:pw:x";
              QueryPassword := "" |} "dj" "pw:x" eq_refl eq_refl eq_refl).
Defined.

End Witnesses.

(** ** More on the ring buffer *)

Section RingStep.
Import Ring.
Local Open Scope Z_scope.

Lemma lastn_app_ge {A} (n : nat) (l d : list A) :
  (length d <= n)%nat -> lastn n (l ++ d) = lastn (n - length d) l ++ d.
Proof.
  intros H. rewrite (lastn_min (n - length d)).
  rewrite <- lastn_app by lia. rewrite (lastn_min n (l ++ d)).
  f_equal. rewrite length_app. lia.
Qed.

(** X1.  One call of [broadcast], from any contents of the ring buffer:
    the new contents are the last
    [min (old length + chunk length) (max capacity (chunk length))] bytes
    of the old contents followed by the chunk.  So the chunk is always
    kept whole at the end, nothing is dropped when the chunk fits, and
    what is dropped is dropped from the front. *)
Theorem X1_ringWrite_step (buf data : list byte) :
  let new := ringWrite maxRingBufferSize buf data in
  new = suffix (Z.min (len buf + len data) (Z.max maxRingBufferSize (len data)))
          (buf ++ data)
  /\ suffix (len data) new = data
  /\ len new = Z.min (len buf + len data) (Z.max maxRingBufferSize (len data))
  /\ (len buf + len data <= maxRingBufferSize -> new = buf ++ data).
Proof.
  intros new.
  assert (Hnew : new = suffix (Z.min (len buf + len data)
                                 (Z.max maxRingBufferSize (len data)))
                         (buf ++ data)).
  { unfold new. rewrite ringWrite_spec, !suffix_lastn.
    rewrite (lastn_app_ge _ buf data)
      by (unfold len, maxRingBufferSize; lia).
    f_equal. rewrite (lastn_min _ buf), (lastn_min (_ - _)%nat buf). f_equal.
    unfold len, maxRingBufferSize. lia. }
  split; [exact Hnew|]. split; [|split].
  - unfold new. rewrite ringWrite_spec, !suffix_lastn. unfold len.
    rewrite Nat2Z.id. rewrite lastn_app_ge by lia.
    rewrite Nat.sub_diag. unfold lastn at 1. rewrite Nat.sub_0_r, drop_all.
    reflexivity.
  - rewrite Hnew, suffix_lastn. unfold len. rewrite lastn_length, length_app.
    unfold maxRingBufferSize. lia.
  - intros Hfit. rewrite Hnew, suffix_lastn. apply lastn_all.
    rewrite length_app. unfold len, maxRingBufferSize in *. lia.
Qed.

(** Witness of X1: a chunk that fits is appended. *)
Lemma X1_ringWrite_step_witness :
  ringWrite maxRingBufferSize [x01; x02] [x03] = [x01; x02; x03].
Proof.
  exact (proj2 (proj2 (proj2 (X1_ringWrite_step [x01; x02] [x03])))
           ltac:(vm_compute; discriminate)).
Defined.

End RingStep.

(** ** More on the NickServ client *)

Section AuthMore.
Import NickServAuth.
Local Open Scope string_scope.
Variable Marshal : AuthRequest -> string + string.
Variable NewRequest : string -> string -> string -> Request + string.
Variable Do : Request -> Response + string.
Variable Decode : string -> AuthResponse + string.

Abbreviation Authenticate := (Authenticate Marshal NewRequest Do Decode).
Abbreviation sent_request := (sent_request Marshal NewRequest).

(** X9.  [Authenticate] returns [false] with a nil error in one case only:
    the request was sent, the answer has status 200 and decodes, and it
    says [success: false] with an empty or missing message.  A rejection
    with a message comes back as an error that carries the message.  So a
    caller has to test the boolean as well as the error. *)
Theorem X9_Authenticate_false_nil (a : AuthClient) (user pass : string) :
  (Authenticate a user pass = (false, None) <->
     exists req resp authResp,
       sent_request a user pass = Some req /\ Do req = inl resp
       /\ StatusCode resp = StatusOK /\ Decode (Body resp) = inl authResp
       /\ Success authResp = false /\ Message authResp = "")
  /\ (forall message,
        Authenticate a user pass = (false, Some (ErrAuth message)) <->
        exists req resp authResp,
          sent_request a user pass = Some req /\ Do req = inl resp
          /\ StatusCode resp = StatusOK /\ Decode (Body resp) = inl authResp
          /\ Success authResp = false /\ Message authResp = message
          /\ message <> "").
Proof.
  unfold NickServAuth.Authenticate, NickServAuth.sent_request.
  destruct (Marshal _) as [jsonData|e1]; simpl.
  2:{ split; [|intros m]; (split; [done | intros (?&?&?&?&_); done]). }
  destruct (NewRequest _ _ _) as [req0|e2]; simpl.
  2:{ split; [|intros m]; (split; [done | intros (?&?&?&?&_); done]). }
  set (req := Header_Set _ _ _).
  destruct (Do req) as [resp|e3] eqn:HDo; simpl.
  2:{ split; [|intros m];
        (split; [done | intros (?&?&?&[= <-]&?&_); congruence]). }
  destruct (Z.eqb_spec (StatusCode resp) StatusOK) as [Hst|Hst]; simpl.
  2:{ split; [|intros m];
        (split; [done | intros (?&?&?&[= <-]&?&?&_); congruence]). }
  destruct (Decode (Body resp)) as [authResp|e4] eqn:HDec; simpl.
  2:{ split; [|intros m];
        (split; [done | intros (?&?&?&[= <-]&?&?&?&_); congruence]). }
  destruct (Success authResp) eqn:HS; simpl.
  { split; [|intros m];
      (split; [done | intros (?&?&?&[= <-]&?&?&?&?&_); congruence]). }
  destruct (String.eqb_spec (Message authResp) "") as [Hm|Hm]; simpl.
  - split; [|intros m]; split.
    + intros _. exists req, resp, authResp. done.
    + done.
    + done.
    + intros (?&?&?&[= <-]&?&?&?&?&?&?). congruence.
  - split; [|intros m]; split.
    + done.
    + intros (?&?&?&[= <-]&?&?&?&?&?). congruence.
    + intros [= <-]. exists req, resp, authResp. done.
    + intros (?&?&?&[= <-]&?&?&?&?&?&?). congruence.
Qed.

End AuthMore.

Section AuthMoreWitness.
Import NickServAuth.
Local Open Scope string_scope.

(** Witness of X9: the sample server says [success: false] without a
    message. *)
Lemma X9_Authenticate_false_nil_witness :
  Authenticate Marshal0 NewRequest0 Do0 Decode0 (NewAuthClient "u" "t")
    "nick" "pw" = (false, None).
Proof.
  apply (proj2 (proj1 (X9_Authenticate_false_nil Marshal0 NewRequest0 Do0
                         Decode0 (NewAuthClient "u" "t") "nick" "pw"))).
  eexists _, _, _. repeat split.
Defined.

End AuthMoreWitness.

(** ** More on the credentials *)

Section CredentialMore.
Import Strings Server Invariants.
Local Open Scope string_scope.
Variable DecodeString : string -> option string.

Lemma Cut_inv (s : string) (sep : ascii) (before after : string) :
  Cut s sep = Some (before, after) ->
  s = before ++ String sep after /\ ContainsByte before sep = false.
Proof.
  revert before. induction s as [|c s IH]; intros before; simpl; [done|].
  destruct (Ascii.eqb_spec c sep) as [->|Hne].
  - intros [= <- <-]. done.
  - destruct (Cut s sep) as [[b a]|]; [|done].
    intros [= <- <-]. destruct (IH b eq_refl) as [-> Hb]. simpl.
    split; [done|]. rewrite Hb.
    now destruct (Ascii.eqb_spec c sep).
Qed.

Lemma prefix_inv (p s : string) :
  String.prefix p s = true -> s = p ++ string_from s (String.length p).
Proof.
  revert s. induction p as [|c p IH]; intros s.
  - intros _. unfold string_from. change (String.length "") with 0%nat.
    rewrite Nat.sub_0_r, substring_all. reflexivity.
  - destruct s as [|d s]; simpl; [done|].
    destruct (ascii_dec c d) as [->|]; [|done].
    intros H. rewrite (IH s H) at 1. reflexivity.
Qed.

Lemma parseBasicAuth_inv (r : Request) (user pass : string) :
  parseBasicAuth DecodeString r = (user, pass, true) ->
  exists b64,
    Authorization r = "Basic " ++ b64
    /\ DecodeString b64 = Some (user ++ ":" ++ pass)
    /\ ContainsByte user ":" = false.
Proof.
  unfold parseBasicAuth.
  destruct (String.eqb_spec (Authorization r) "") as [|Hne];
    simpl; [done|].
  destruct (HasPrefix (Authorization r) "Basic ") eqn:Hp; simpl; [|done].
  apply prefix_inv in Hp.
  destruct (DecodeString _) as [payload|] eqn:Hdec; [|done].
  unfold SplitN2.
  destruct (Cut payload ":") as [[b a]|] eqn:Hcut; [|done].
  intros [= <- <-]. apply Cut_inv in Hcut as [-> Hb].
  eexists. split; [exact Hp|]. split; [exact Hdec | exact Hb].
Qed.

Lemma credentials_none (r : Request) :
  (parseBasicAuth DecodeString r).2 = false ->
  ContainsByte (sourcePass r) ":" = false ->
  (credentials DecodeString r).2 = false.
Proof.
  intros Hno Hc. unfold credentials.
  destruct (parseBasicAuth DecodeString r) as [[user pass] ok].
  simpl in Hno. subst ok. simpl. fold (sourcePass r).
  rewrite (SplitN2_none _ ":" Hc).
  now destruct (negb (sourcePass r =? "")).
Qed.

(** X10.  [parseBasicAuth] accepts exactly the headers that are ["Basic "]
    (with this case and one space) followed by text that decodes to a
    payload with a colon; it then returns the text before the first colon
    and the text after it, which joined by a colon give the payload back.
    In every other case it returns two empty strings and [false]. *)
Theorem X10_parseBasicAuth_exact (r : Request) :
  (forall user pass,
      parseBasicAuth DecodeString r = (user, pass, true) <->
      exists b64,
        Authorization r = "Basic " ++ b64
        /\ DecodeString b64 = Some (user ++ ":" ++ pass)
        /\ ContainsByte user ":" = false)
  /\ ((parseBasicAuth DecodeString r).2 = false ->
      parseBasicAuth DecodeString r = ("", "", false)).
Proof.
  split.
  - intros user pass. split.
    + apply parseBasicAuth_inv.
    + intros (b64 & Hauth & Hdec & Hu).
      rewrite (parseBasicAuth_Basic DecodeString r b64 _ Hauth Hdec).
      change (":" ++ pass) with (String ":" pass).
      now rewrite (SplitN2_first user pass ":" Hu).
  - unfold parseBasicAuth. repeat case_match; simpl; done.
Qed.

(** X11.  The sources of credentials are tried in a fixed order.  A Basic
    header that gives a pair wins over the [X-Source-Password] header and
    the [password] query value.  The query value is read only when the
    [X-Source-Password] header is empty: a header without a colon is not
    made up for by a good query value. *)
Theorem X11_credentials_precedence (r : Request) :
  ((parseBasicAuth DecodeString r).2 = true ->
   credentials DecodeString r = parseBasicAuth DecodeString r)
  /\ (XSourcePassword r <> "" ->
      forall q, credentials DecodeString (with_query r q)
                = credentials DecodeString r)
  /\ ((parseBasicAuth DecodeString r).2 = false ->
      XSourcePassword r <> "" ->
      ContainsByte (XSourcePassword r) ":" = false ->
      forall q, (credentials DecodeString (with_query r q)).2 = false).
Proof.
  assert (Hq : forall q, parseBasicAuth DecodeString (with_query r q)
                         = parseBasicAuth DecodeString r) by reflexivity.
  split; [|split].
  - unfold credentials.
    destruct (parseBasicAuth DecodeString r) as [[user pass] ok].
    simpl. now intros ->.
  - intros Hx q. unfold credentials. rewrite Hq.
    destruct (parseBasicAuth DecodeString r) as [[user pass] ok].
    simpl XSourcePassword. simpl QueryPassword.
    destruct (String.eqb_spec (XSourcePassword r) ""); [done|reflexivity].
  - intros Hno Hx Hc q.
    apply credentials_none; [now rewrite Hq|].
    unfold sourcePass. simpl.
    destruct (String.eqb_spec (XSourcePassword r) ""); [done | exact Hc].
Qed.

(** X12.  Whatever [credentials] returns with [ok] was written by the
    client with a colon: the name has no colon, and name, colon and
    secret put together are the decoded Basic payload or, when the Basic
    header gave nothing, the fallback value. *)
Theorem X12_credentials_sound (r : Request) (user pass : string) :
  credentials DecodeString r = (user, pass, true) ->
  ContainsByte user ":" = false
  /\ ((exists b64, Authorization r = "Basic " ++ b64
                   /\ DecodeString b64 = Some (user ++ ":" ++ pass))
      \/ ((parseBasicAuth DecodeString r).2 = false
          /\ sourcePass r = user ++ ":" ++ pass)).
Proof.
  unfold credentials.
  destruct (parseBasicAuth DecodeString r) as [[u p] [|]] eqn:Hp; simpl.
  - intros [= -> ->].
    apply parseBasicAuth_inv in Hp as (b64 & Ha & Hd & Hu).
    split; [exact Hu|]. left. eauto.
  - fold (sourcePass r).
    destruct (negb (sourcePass r =? "")); [|done].
    unfold SplitN2.
    destruct (Cut (sourcePass r) ":") as [[b a]|] eqn:Hcut; [|done].
    intros [= -> ->]. apply Cut_inv in Hcut as [Hs Hb].
    split; [exact Hb|]. right. split; [reflexivity | exact Hs].
Qed.

End CredentialMore.

(** ** More on the configuration loader *)

Section ConfigMore.
Import Strings Config ConfigLines.
Local Open Scope string_scope.

(** One round of the loop, by what the line assigns. *)
Lemma scanLine_assignment (cfg : Config) (text : string) :
  scanLine cfg text
  = match assignment text with
    | Some (key, value) =>
        if key =? "listen" then
          {| ListenAddress := value; AuthURL := AuthURL cfg;
             APIToken := APIToken cfg |}
        else if key =? "auth_url" then
          {| ListenAddress := ListenAddress cfg; AuthURL := value;
             APIToken := APIToken cfg |}
        else if key =? "api_token" then
          {| ListenAddress := ListenAddress cfg; AuthURL := AuthURL cfg;
             APIToken := value |}
        else cfg
    | None => cfg
    end.
Proof.
  unfold scanLine, assignment, SplitN2.
  destruct ((TrimSpace text =? "") || HasPrefix (TrimSpace text) "#");
    [reflexivity|].
  now destruct (Cut (TrimSpace text) "=") as [[key value]|].
Qed.

Lemma scanLine_ignored (cfg : Config) (text : string) :
  ignored text -> scanLine cfg text = cfg.
Proof.
  unfold ignored. rewrite scanLine_assignment.
  destruct (assignment text) as [[key value]|]; [|done].
  intros (H1 & H2 & H3).
  destruct (String.eqb_spec key "listen"); [done|].
  destruct (String.eqb_spec key "auth_url"); [done|].
  now destruct (String.eqb_spec key "api_token").
Qed.

Lemma scanLines_snoc (lines : list string) (text : string) :
  scanLines (lines ++ [text]) = scanLine (scanLines lines) text.
Proof. unfold scanLines. apply foldl_snoc. Qed.

Lemma setting_snoc (key : string) (lines : list string) (text : string) :
  setting key (lines ++ [text])
  = match assigns key text with
    | Some value => value
    | None => setting key lines
    end.
Proof.
  unfold setting. rewrite omap_app. simpl.
  destruct (assigns key text) as [value|]; simpl.
  - now rewrite last_snoc.
  - now rewrite app_nil_r.
Qed.

(** X13.  Blank lines, comment lines, lines without an equals sign and
    lines that assign to an unknown key can be added to or removed from
    [nickcast.conf] anywhere: [LoadConfig] returns the same error and
    leaves the same [AppConfig]. *)
Theorem X13_ignored_lines (before after : list string) (text : string)
    (scanErr : option string) (AppConfig : Config) :
  ignored text ->
  LoadConfig (Scanned (before ++ text :: after) scanErr) AppConfig
  = LoadConfig (Scanned (before ++ after) scanErr) AppConfig.
Proof.
  intros Hig. unfold LoadConfig.
  replace (scanLines (before ++ text :: after))
    with (scanLines (before ++ after)); [reflexivity|].
  unfold scanLines. rewrite !foldl_app. simpl.
  now rewrite (scanLine_ignored _ _ Hig).
Qed.

(** Witness of X13: a comment between the two settings. *)
Lemma X13_ignored_lines_witness :
  LoadConfig (Scanned ["auth_url=u"; " # the token"; "api_token=t"] None) zero
  = LoadConfig (Scanned ["auth_url=u"; "api_token=t"] None) zero.
Proof.
  exact (X13_ignored_lines ["auth_url=u"] ["api_token=t"] " # the token"
           None zero I).
Defined.

(** X14.  After the loop of [LoadConfig] each of the three settings holds
    the value of the last line that assigns to its key, or the empty
    string when no line does: a later line overrides an earlier one, and
    lines for one key never change another setting. *)
Theorem X14_last_assignment_wins (lines : list string) :
  ListenAddress (scanLines lines) = setting "listen" lines
  /\ AuthURL (scanLines lines) = setting "auth_url" lines
  /\ APIToken (scanLines lines) = setting "api_token" lines.
Proof.
  induction lines as [|text lines (IH1 & IH2 & IH3)] using rev_ind; [done|].
  rewrite scanLines_snoc, !setting_snoc, scanLine_assignment.
  unfold assigns.
  destruct (assignment text) as [[key value]|]; [|done].
  destruct (String.eqb_spec key "listen") as [->|Hl]; [done|].
  destruct (String.eqb_spec key "auth_url") as [->|Ha]; [done|].
  destruct (String.eqb_spec key "api_token") as [->|Ht]; done.
Qed.

(** X15.  A line that is not a comment is split at its first equals sign
    only, after the spaces around the line are removed, and key and value
    are trimmed: the value may contain equals signs, as a URL with a query
    does. *)
Theorem X15_split_at_first_equals (cfg : Config) (text key value : string) :
  TrimSpace text = key ++ "=" ++ value ->
  ContainsByte key "=" = false ->
  HasPrefix (TrimSpace text) "#" = false ->
  (TrimSpace key = "listen" ->
   scanLine cfg text
   = {| ListenAddress := TrimSpace value; AuthURL := AuthURL cfg;
        APIToken := APIToken cfg |})
  /\ (TrimSpace key = "auth_url" ->
      scanLine cfg text
      = {| ListenAddress := ListenAddress cfg; AuthURL := TrimSpace value;
           APIToken := APIToken cfg |})
  /\ (TrimSpace key = "api_token" ->
      scanLine cfg text
      = {| ListenAddress := ListenAddress cfg; AuthURL := AuthURL cfg;
           APIToken := TrimSpace value |}).
Proof.
  intros Ht Hk Hc.
  assert (Ha : assignment text = Some (TrimSpace key, TrimSpace value)).
  { unfold assignment. rewrite Hc, Ht.
    change ("=" ++ value) with (String "=" value).
    rewrite (Cut_first key value "=" Hk). now destruct key. }
  rewrite scanLine_assignment, Ha.
  repeat split; intros ->; reflexivity.
Qed.

(** Witness of X15: an endpoint with a query. *)
Lemma X15_split_at_first_equals_witness :
  scanLine zero " auth_url = http://h/check?v=1 "
  = {| ListenAddress := ""; AuthURL := "http://h/check?v=1";
       APIToken := "" |}.
Proof.
  exact (proj1 (proj2 (X15_split_at_first_equals zero
                         " auth_url = http://h/check?v=1 "
                         "auth_url " " http://h/check?v=1"
                         eq_refl eq_refl eq_refl)) eq_refl).
Defined.

(** X16.  When [LoadConfig] returns nil, the three fields of [AppConfig]
    are all non-empty.  When the file was read and both [auth_url] and
    [api_token] are missing, the error is the one about [auth_url]. *)
Theorem X16_loaded_config_complete (file : File) (AppConfig : Config) :
  let r := LoadConfig file AppConfig in
  (r.2 = None ->
   ListenAddress r.1 <> "" /\ AuthURL r.1 <> "" /\ APIToken r.1 <> "")
  /\ (~ unreadable file -> AuthURL (parsed file) = "" -> r.2 = Some ErrAuthURL)
  /\ (~ unreadable file -> AuthURL (parsed file) <> "" ->
      APIToken (parsed file) = "" -> r.2 = Some ErrAPIToken).
Proof.
  intros r. subst r. unfold LoadConfig, unreadable, parsed.
  destruct file as [c|p c|lines [e|]]; simpl.
  1-3: split; [done | split; intros H; exfalso; apply H; exact I].
  set (cfg := scanLines lines).
  destruct (String.eqb_spec (ListenAddress cfg) "") as [Hl|Hl]; simpl;
    destruct (String.eqb_spec (AuthURL cfg) "") as [Ha|Ha]; simpl;
    try (split; [done | split; [done | intros _ H; done]]);
    destruct (String.eqb_spec (APIToken cfg) "") as [Hk|Hk]; simpl;
    (split; [try done | split; [done | try done]]).
  all: try (intros _; repeat split; done).
  all: try (intros _ _ H; done).
Qed.

(** Witness of X16: the address is defaulted, the rest comes from the
    file. *)
Lemma X16_loaded_config_complete_witness :
  ListenAddress (LoadConfig (Scanned ["auth_url=u"; "api_token=t"] None) zero).1
  <> "".
Proof.
  exact (proj1 (proj1 (X16_loaded_config_complete
                         (Scanned ["auth_url=u"; "api_token=t"] None) zero)
                  eq_refl)).
Defined.

End ConfigMore.

(** ** More invariants of the running server *)

Section ServerInvariants.
Import Server Invariants.
Local Open Scope nat_scope.
Variable DecodeString : string -> option string.
Variable Authenticate : string -> string -> bool * option NickServAuth.error.

Abbreviation stream_step := (stream_step DecodeString Authenticate).
Abbreviation exec := (exec DecodeString Authenticate).
Abbreviation run := (run DecodeString Authenticate).

(** *** The queues *)

Lemma length_queue_trySend data c :
  length (queue c) <= chanCap -> length (queue (trySend data c)) <= chanCap.
Proof.
  intros H. unfold trySend. destruct (closed c); [done|].
  destruct (Nat.ltb_spec (length (queue c)) chanCap); [|done].
  simpl. rewrite length_app. simpl. lia.
Qed.

Lemma queues_bounded_same g g' :
  chans g' = chans g -> queues_bounded g -> queues_bounded g'.
Proof. intros Hc H ch c. rewrite Hc. apply H. Qed.

Lemma queues_bounded_fanout data g :
  queues_bounded g -> queues_bounded (fanout data g).
Proof.
  intros H ch c. rewrite (proj1 (fanout_spec data g ch)).
  destruct (decide (ch ∈ listeners g)); [|apply H].
  destruct (chans g !! ch) as [c0|] eqn:Hc; [|done].
  intros [= <-]. apply length_queue_trySend. now apply (H ch).
Qed.

Lemma queues_bounded_clear g :
  queues_bounded g -> queues_bounded (clearListeners g).
Proof.
  intros H ch c. simpl.
  rewrite foldr_alter_lookup by apply NoDup_elements.
  destruct (decide (ch ∈ elements (listeners g))); [|apply H].
  destruct (chans g !! ch) as [c0|] eqn:Hc; [|done].
  intros [= <-]. simpl. now apply (H ch).
Qed.

Lemma queues_bounded_register g L :
  queues_bounded g ->
  queues_bounded (registerListener (length (chans g))
                    (set_listeners L (chans g ++ [make_chan]) g)).
Proof.
  intros H ch c. simpl. intros Hc.
  apply lookup_app_Some in Hc as [Hc|[_ Hc]]; [now apply (H ch)|].
  apply list_lookup_singleton_Some in Hc as [_ <-]. simpl. lia.
Qed.

Lemma queues_bounded_receive g k c data rest L :
  chans g !! k = Some c -> queue c = data :: rest ->
  queues_bounded g ->
  queues_bounded
    (set_listeners L (<[k := {| queue := rest; closed := closed c |}]> (chans g))
       g).
Proof.
  intros Hk Hq H ch c'. simpl. intros Hc.
  destruct (decide (ch = k)) as [->|Hne].
  - rewrite list_lookup_insert_eq in Hc by now apply lookup_lt_Some in Hk.
    injection Hc as <-. simpl. specialize (H k c Hk). rewrite Hq in H.
    simpl in H. lia.
  - rewrite list_lookup_insert_ne in Hc by done. now apply (H ch).
Qed.

Lemma queues_bounded_exec a s :
  queues_bounded (globals s) -> queues_bounded (globals (exec a s)).
Proof.
  intros H. destruct a as [i bytes err | j c werr]; unfold Server.exec.
  - destruct (streamers s !! i) as [st|]; [|done].
    unfold Server.stream_step.
    destruct (s_pc st); repeat case_match; simplify_eq; simpl;
      first [ now apply queues_bounded_fanout
            | now apply queues_bounded_clear
            | now apply (queues_bounded_same (globals s))
            | now apply (queues_bounded_same (globals s));
              [apply chans_ringAppend |] ].
  - destruct (listening s !! j) as [l|]; [|done].
    unfold listen_step.
    destruct (l_pc l); repeat case_match; simplify_eq; simpl;
      first [ now apply queues_bounded_register
            | eapply queues_bounded_receive; eassumption
            | now apply (queues_bounded_same (globals s))
            | done ].
Qed.

(** X4.  In every state that an interleaving of streamers and listeners
    reaches, no listener channel holds more than 100 pending chunks:
    [broadcast] drops a chunk for a listener rather than queue a
    101st. *)
Theorem X4_queues_bounded (reqs : list Request) (n : nat)
    (sch : list action) (ch : nat) (c : chan) :
  chans (globals (run sch (init reqs n))) !! ch = Some c ->
  length (queue c) <= 100.
Proof.
  revert ch c. change 100 with chanCap.
  change (queues_bounded (globals (run sch (init reqs n)))).
  induction sch as [|a sch IH] using rev_ind.
  - intros ch c Hc. done.
  - rewrite run_snoc. now apply queues_bounded_exec.
Qed.


(** *** The owners of the registered channels *)

Lemma length_foldr_alter (f : chan -> chan) (keys : list nat) (cs : list chan) :
  length (foldr (fun k cs => alter f k cs) cs keys) = length cs.
Proof.
  induction keys as [|k keys IH]; simpl; [done|].
  now rewrite length_alter.
Qed.

(** A step of a streamer registers no channel and makes none. *)
Lemma stream_step_registry i bytes err g st :
  (forall ch, ch ∈ listeners (stream_step i bytes err g st).1 ->
     ch ∈ listeners g)
  /\ length (chans (stream_step i bytes err g st).1) = length (chans g).
Proof.
  unfold Server.stream_step.
  destruct (s_pc st); repeat case_match; simplify_eq; simpl;
    rewrite ?length_foldr_alter, ?listeners_ringAppend, ?chans_ringAppend;
    (split; [|done]); done.
Qed.

(** A step of a listener either leaves the registry and its own channel
    alone, or makes and registers a new channel, or takes its channel
    out of the registry. *)
Lemma listen_step_registry c werr v g l :
  let g' := (listen_step c werr v g l).1 in
  let l' := (listen_step c werr v g l).2 in
  (has_chan l' = has_chan l /\ l_ch l' = l_ch l
   /\ listeners g' = listeners g /\ length (chans g') = length (chans g))
  \/ (has_chan l = false /\ has_chan l' = true
      /\ l_ch l' = length (chans g)
      /\ listeners g' = {[length (chans g)]} ∪ listeners g
      /\ length (chans g') = S (length (chans g)))
  \/ (has_chan l = true /\ has_chan l' = false
      /\ listeners g' = listeners g ∖ {[l_ch l]}
      /\ length (chans g') = length (chans g)).
Proof.
  unfold listen_step, has_chan.
  destruct (l_pc l) eqn:Hpc; simpl;
    repeat (case_match; simpl; rewrite ?Hpc; simplify_eq);
    rewrite ?length_insert, ?length_app; simpl;
    first [ simpl in *; congruence
          | left; repeat split; done
          | right; left; repeat split; first [done | lia]
          | right; right; repeat split; done ].
Qed.

Lemma owned_init reqs n : owned (init reqs n).
Proof.
  split; [|split].
  - intros ch Hch. simpl in Hch. now apply elem_of_empty in Hch.
  - intros j l Hj Hc. simpl in Hj. apply lookup_replicate in Hj as [-> _].
    done.
  - intros j j' l l' Hj _ Hc. simpl in Hj.
    apply lookup_replicate in Hj as [-> _]. done.
Qed.

Lemma owned_exec a s : owned s -> owned (exec a s).
Proof.
  intros (O1 & O2 & O3). destruct a as [i bytes err | j c werr].
  - destruct (streamers s !! i) as [st|] eqn:Hi.
    2:{ unfold Server.exec. rewrite Hi. done. }
    rewrite (exec_stream _ _ _ _ _ _ _ Hi).
    destruct (stream_step_registry i bytes err (globals s) st) as [Hsub Hlen].
    split; [|split]; simpl.
    + intros ch Hch. apply O1. now apply Hsub.
    + intros j l Hj Hc. rewrite Hlen. now apply (O2 j l).
    + exact O3.
  - destruct (listening s !! j) as [l|] eqn:Hj.
    2:{ unfold Server.exec. rewrite Hj. done. }
    rewrite (exec_listen _ _ _ _ _ _ _ Hj).
    assert (Hlt : j < length (listening s)) by now apply lookup_lt_Some in Hj.
    pose proof (listen_step_registry c werr (view (streamers s))
                  (globals s) l) as Hcases.
    set (g' := (listen_step c werr (view (streamers s)) (globals s) l).1)
      in *.
    set (l' := (listen_step c werr (view (streamers s)) (globals s) l).2)
      in *.
    simpl in Hcases.
    destruct Hcases as [(Hh & Hch & Hl & Hlen)
                       |[(Hh & Hh' & Hch & Hl & Hlen)
                        |(Hh & Hh' & Hl & Hlen)]].
    + (* the registry and the channel of [j] stay *)
      assert (Hold : forall j1 l1,
                 <[j := l']> (listening s) !! j1 = Some l1 ->
                 has_chan l1 = true ->
                 exists l0, listening s !! j1 = Some l0
                            /\ has_chan l0 = true /\ l_ch l0 = l_ch l1).
      { intros j1 l1 Hj1 Hc1.
        apply list_lookup_insert_Some in Hj1 as [(<- & <- & _)|[Hne Hj1]].
        - exists l. rewrite <- Hh, <- Hch. done.
        - exists l1. done. }
      split; [|split]; simpl.
      * intros ch Hin. rewrite Hl in Hin.
        destruct (O1 ch Hin) as (j0 & l0 & Hj0 & Hc0 & Hch0).
        destruct (decide (j0 = j)) as [->|Hne].
        -- rewrite Hj in Hj0. injection Hj0 as <-.
           exists j, l'. rewrite list_lookup_insert_eq by done.
           rewrite Hh, Hch. done.
        -- exists j0, l0. rewrite list_lookup_insert_ne by done. done.
      * intros j1 l1 Hj1 Hc1.
        destruct (Hold j1 l1 Hj1 Hc1) as (l0 & Hj0 & Hc0 & <-).
        rewrite Hlen. now apply (O2 j1 l0).
      * intros j1 j2 l1 l2 Hj1 Hj2 Hc1 Hc2 Heq.
        destruct (Hold j1 l1 Hj1 Hc1) as (l1o & Hj1o & Hc1o & He1).
        destruct (Hold j2 l2 Hj2 Hc2) as (l2o & Hj2o & Hc2o & He2).
        apply (O3 j1 j2 l1o l2o); try done. congruence.
    + (* [j] registers a new channel *)
      split; [|split]; simpl.
      * intros ch Hin. rewrite Hl in Hin.
        apply elem_of_union in Hin as [Hin|Hin].
        -- apply elem_of_singleton in Hin as ->.
           exists j, l'. rewrite list_lookup_insert_eq by done. done.
        -- destruct (O1 ch Hin) as (j0 & l0 & Hj0 & Hc0 & Hch0).
           exists j0, l0. rewrite list_lookup_insert_ne; [done|].
           intros <-. congruence.
      * intros j1 l1 Hj1 Hc1. rewrite Hlen.
        apply list_lookup_insert_Some in Hj1 as [(<- & <- & _)|[Hne Hj1]].
        -- lia.
        -- specialize (O2 j1 l1 Hj1 Hc1). lia.
      * intros j1 j2 l1 l2 Hj1 Hj2 Hc1 Hc2 Heq.
        apply list_lookup_insert_Some in Hj1 as [(<- & <- & _)|[Hne1 Hj1]];
          apply list_lookup_insert_Some in Hj2 as [(<- & <- & _)|[Hne2 Hj2]].
        -- done.
        -- specialize (O2 j2 l2 Hj2 Hc2). lia.
        -- specialize (O2 j1 l1 Hj1 Hc1). lia.
        -- now apply (O3 j1 j2 l1 l2).
    + (* [j] unregisters its channel *)
      split; [|split]; simpl.
      * intros ch Hin. rewrite Hl in Hin.
        apply elem_of_difference in Hin as [Hin Hne].
        destruct (O1 ch Hin) as (j0 & l0 & Hj0 & Hc0 & Hch0).
        exists j0, l0. rewrite list_lookup_insert_ne; [done|].
        intros <-. rewrite Hj in Hj0. injection Hj0 as <-.
        apply Hne. now apply elem_of_singleton.
      * intros j1 l1 Hj1 Hc1. rewrite Hlen.
        apply list_lookup_insert_Some in Hj1 as [(<- & <- & _)|[Hne Hj1]].
        -- congruence.
        -- now apply (O2 j1 l1).
      * intros j1 j2 l1 l2 Hj1 Hj2 Hc1 Hc2 Heq.
        apply list_lookup_insert_Some in Hj1 as [(<- & <- & _)|[Hne1 Hj1]];
          [congruence|].
        apply list_lookup_insert_Some in Hj2 as [(<- & <- & _)|[Hne2 Hj2]];
          [congruence|].
        now apply (O3 j1 j2 l1 l2).
Qed.

Lemma owned_run sch reqs n : owned (run sch (init reqs n)).
Proof.
  induction sch as [|a sch IH] using rev_ind.
  - apply owned_init.
  - rewrite run_snoc. now apply owned_exec.
Qed.

(** X6.  In every state that an interleaving reaches, each registered
    channel belongs to exactly one goroutine of [listenHandler], one that
    has registered and has not yet run its deferred [unregisterListener]:
    the registry never keeps the channel of a listener that has left, and
    two listeners never share a channel. *)
Theorem X6_registered_channels_owned (reqs : list Request) (n : nat)
    (sch : list action) :
  let s := run sch (init reqs n) in
  (forall ch, ch ∈ listeners (globals s) ->
     exists j l, listening s !! j = Some l /\ has_chan l = true
                 /\ l_ch l = ch)
  /\ (forall j j' l l',
        listening s !! j = Some l -> listening s !! j' = Some l' ->
        has_chan l = true -> has_chan l' = true -> l_ch l = l_ch l' ->
        j = j').
Proof.
  intros s. destruct (owned_run sch reqs n) as (O1 & _ & O3). done.
Qed.

End ServerInvariants.

(** ** Sessions *)

Section Sessions.
Import Server Invariants Scenario.
Local Open Scope nat_scope.
Variable DecodeString : string -> option string.
Variable Authenticate : string -> string -> bool * option NickServAuth.error.

Abbreviation stream_step := (Server.stream_step DecodeString Authenticate).
Abbreviation exec := (Server.exec DecodeString Authenticate).
Abbreviation run := (Server.run DecodeString Authenticate).

(** *** The cancel function and the current context *)

Lemma cancel_current_new g : cancel_current (newStreamCtx g).
Proof.
  split; simpl; [done|]. rewrite length_app. simpl. lia.
Qed.

Lemma cancel_current_same g g' :
  streamCancelFn g' = streamCancelFn g -> streamCtx g' = streamCtx g ->
  length (ctxs g') = length (ctxs g) ->
  cancel_current g -> cancel_current g'.
Proof. intros H1 H2 H3 [Hf Hl]. split; congruence. Qed.

Lemma cancel_current_exec a s :
  cancel_current (globals s) -> cancel_current (globals (exec a s)).
Proof.
  intros H. destruct a as [i bytes err | j c werr]; unfold Server.exec.
  - destruct (streamers s !! i) as [st|]; [|done].
    unfold Server.stream_step.
    destruct (s_pc st); repeat case_match; simplify_eq; simpl;
      first [ apply cancel_current_new
            | apply (cancel_current_same (globals s)); simpl;
              rewrite ?length_cancel, ?streamCancelFn_ringAppend,
                ?streamCtx_ringAppend, ?ctxs_ringAppend; done ].
  - destruct (listening s !! j) as [l|]; [|done].
    unfold listen_step.
    destruct (l_pc l); repeat case_match; simplify_eq; simpl;
      first [ now apply (cancel_current_same (globals s)) | done ].
Qed.

Lemma cancel_current_run sch reqs n :
  cancel_current (globals (run sch (init reqs n))).
Proof.
  induction sch as [|a sch IH] using rev_ind.
  - split; simpl; [done | lia].
  - rewrite run_snoc. now apply cancel_current_exec.
Qed.

(** X7.  A listener that waits for the stream with the context that is
    current is turned away as soon as a streamer has been authenticated:
    the streamer's first act is to cancel that context, and the
    listener's [select] then answers 503 through the cancellation case.
    This holds in every state that an interleaving reaches. *)
Theorem X7_waiting_listener_turned_away (reqs : list Request) (n : nat)
    (sch : list action) (i j gate : nat) (st : streamer) (l : listener)
    (bytes : list byte) (err werr : bool) :
  let s := run sch (init reqs n) in
  streamers s !! i = Some st -> s_pc st = S_begin ->
  listening s !! j = Some l -> l_pc l = L_wait gate ->
  l_ctx l = streamCtx (globals s) ->
  let s' := exec (AStream i bytes err) s in
  fired (ctxs (globals s')) (l_ctx l) = true
  /\ listening (exec (AListen j CaseStream werr) s') !! j
     = Some (l_fail "No active stream" StatusServiceUnavailable l).
Proof.
  intros s Hi Hpc Hj Hlpc Hctx s'.
  destruct (cancel_current_run sch reqs n) as [Hfn Hlt]. fold s in Hfn, Hlt.
  assert (Hs' : s' = {| globals := newStreamCtx (globals s);
                        streamers :=
                          <[i := s_goto S_read
                                   (s_set_buf (replicate 1024 x00) st)]>
                            (streamers s);
                        listening := listening s |}).
  { unfold s'. rewrite (exec_stream _ _ _ _ _ _ _ Hi).
    unfold Server.stream_step. now rewrite Hpc. }
  assert (Hf : fired (ctxs (globals s')) (l_ctx l) = true).
  { rewrite Hs', Hctx. simpl. rewrite Hfn. simpl.
    rewrite fired_app_l by now rewrite length_insert.
    unfold fired. now rewrite list_lookup_insert_eq. }
  split; [exact Hf|].
  assert (Hj' : listening s' !! j = Some l) by now rewrite Hs'.
  rewrite (exec_listen _ _ _ _ _ _ _ Hj'). simpl.
  rewrite list_lookup_insert_eq by now apply lookup_lt_Some in Hj'.
  unfold listen_step. now rewrite Hlpc, Hf.
Qed.

(** *** The end of a session *)

(** The deferred function of [streamHandler], run to its
    end, leaves the server idle whatever state it starts from: no
    streamer attached, no listener registered, an empty ring buffer, a
    fresh [Once], a gate that has not fired and a new context that is not
    cancelled.  The context that was current is cancelled, and every
    channel that was registered is closed. *)
Lemma endSession_idle g :
  idle (endSession g)
  /\ (forall c, streamCancelFn g = Some c -> c < length (ctxs g) ->
        fired (ctxs (endSession g)) c = true)
  /\ (forall ch c, ch ∈ listeners g -> chans g !! ch = Some c ->
        chans (endSession g) !! ch = Some (close c)).
Proof.
  split; [|split].
  - unfold idle, endSession, resetStreamState. simpl.
    split; [done|]. split; [done|]. split; [done|]. split; [done|].
    split; [|split].
    + unfold fired. now rewrite lookup_app_r, Nat.sub_diag.
    + unfold fired. now rewrite lookup_app_r, Nat.sub_diag.
    + apply cancel_current_new.
  - intros c Hc Hlt. unfold endSession, resetStreamState, newStreamCtx.
    simpl. rewrite Hc. simpl.
    rewrite fired_app_l by now rewrite !length_insert.
    unfold fired.
    destruct (ctxs g !! c) as [b|] eqn:Hb.
    2:{ apply lookup_ge_None in Hb. lia. }
    rewrite list_insert_insert_eq. now rewrite list_lookup_insert_eq.
  - intros ch c Hin Hc. unfold endSession, resetStreamState. simpl.
    rewrite foldr_alter_lookup by apply NoDup_elements.
    rewrite decide_True by now apply elem_of_elements.
    now rewrite Hc.
Qed.

End Sessions.

Section SessionRun.
Import Server Invariants Scenario.
Local Open Scope nat_scope.
Variable DecodeString : string -> option string.
Variable Authenticate : string -> string -> bool * option NickServAuth.error.
Variable r : Request.
Hypothesis Hauth : authorized DecodeString Authenticate r.

Abbreviation run := (Server.run DecodeString Authenticate).

(** The deferred function, step by step, and the steps after the end. *)
Lemma cleanup_run g B l :
  run (replicate 10 (step 0)) (sys1 g (mk r S_store B) l)
  = sys1 (endSession g) (mk r S_done B) l.
Proof. reflexivity. Qed.

Lemma disconnect_run g B l c :
  streaming g -> length c <= 1024 ->
  exists g0 B',
    run (disconnect 0 c) (sys1 g (mk r S_read B) l)
    = sys1 (endSession g0) (mk r S_done B') l.
Proof.
  intros Hs Hle. unfold disconnect, read.
  destruct c as [|b c].
  - exists g, B. rewrite run_cons. exact (cleanup_run g B l).
  - assert (Hc : chunk_ok (b :: c)) by (split; simpl in *; lia).
    remember (b :: c) as d eqn:Hd. clear Hd b c Hle.
    exists (broadcast_g d g), (d ++ drop (length d) B).
    change (replicate 10 (step 0))
      with ([step 0; step 0; step 0] ++ replicate 7 (step 0)).
    rewrite app_comm_cons, run_app.
    rewrite !run_cons, run_nil. unfold step.
    rewrite exec_stream1, (step_read _ _ r _ _ _ _ Hc). cbn [fst snd].
    rewrite exec_stream1, (step_once _ _ r _ _ _ _ _ _ (onceDo_gate g Hs)).
    cbn [fst snd].
    rewrite exec_stream1. unfold Server.stream_step at 1 2. simpl s_pc.
    cbv iota. cbn [fst snd]. simpl s_buf. rewrite take_app_length.
    rewrite exec_stream1. reflexivity.
Qed.

(** X8.  A whole session of an authorized streamer, run with nothing in
    between (connect, any number of chunks, the end of the body with a
    last read of at most 1024 bytes, the deferred function), takes the
    server from idle to idle: the streamer ends without an error answer,
    a waiting listener is left as it was, and the state is ready for the
    next compare-and-swap. *)
Theorem X8_session_returns_to_idle (cs : list (list byte)) (c : list byte) :
  Forall chunk_ok cs -> length c <= 1024 ->
  let s0 := init [r] 1 in
  let s := run (connect 0 ++ publishes 0 cs ++ disconnect 0 c) s0 in
  idle (globals s0) /\ idle (globals s)
  /\ (exists buf, streamers s = [mk r S_done buf])
  /\ listening s = [new_listener].
Proof.
  intros Hcs Hle s0 s. split.
  { unfold s0. simpl. repeat split; simpl; lia. }
  unfold s, s0. rewrite app_assoc, run_app.
  change (init [r] 1)
    with (sys1 (resetStreamState zero) (new_streamer r) new_listener).
  destruct (published_run DecodeString Authenticate r Hauth cs new_listener Hcs)
    as (g & B & -> & Hs & _).
  destruct (disconnect_run g B new_listener c Hs Hle) as (g0 & B' & ->).
  split; [apply endSession_idle|]. split; [eauto | reflexivity].
Qed.

End SessionRun.

(** ** The registry, the ring buffer and the deferred function at large *)

Section ServerAtLarge.
Import Server Invariants.
Local Open Scope nat_scope.
Variable DecodeString : string -> option string.
Variable Authenticate : string -> string -> bool * option NickServAuth.error.

Abbreviation run := (Server.run DecodeString Authenticate).

(** X2.  In every state that an interleaving of streamers and listeners
    reaches, the ring buffer holds at most 128 KB: [streamHandler] reads
    at most 1024 bytes at a time, and [broadcast] then trims the buffer
    to the capacity. *)
Theorem X2_ring_within_capacity (reqs : list Request) (n : nat)
    (sch : list action) :
  (Ring.len (ringBuffer (globals (run sch (init reqs n))))
   <= Ring.maxRingBufferSize)%Z.
Proof. exact (proj1 (ring_ok_run DecodeString Authenticate sch reqs n)). Qed.

(** X3.  In every state that an interleaving reaches, every registered
    channel exists and is open.  So the send in [broadcast] and the
    [close] in [clearListeners], which both panic on a closed channel,
    always meet an open one. *)
Theorem X3_registered_channels_open (reqs : list Request) (n : nat)
    (sch : list action) (ch : nat) :
  ch ∈ listeners (globals (run sch (init reqs n))) ->
  exists c, chans (globals (run sch (init reqs n))) !! ch = Some c
            /\ closed c = false.
Proof. apply (registered_open_run DecodeString Authenticate sch reqs n). Qed.

(** X5.  The fan-out of [broadcast], seen from one open channel: when it
    is registered and has fewer than 100 pending slices, the slice is
    added at the end of its queue; when it is registered and full, it is
    left as it is; when it is not registered, it is left as it is.  What
    happens to it does not depend on the other channels, and the loop
    changes nothing but the channels. *)
Theorem X5_fanout_per_channel (data : slice) (g : Globals) (ch : nat)
    (c : chan) :
  chans g !! ch = Some c -> closed c = false ->
  (ch ∈ listeners g -> length (queue c) < 100 ->
   chans (fanout data g) !! ch
   = Some {| queue := queue c ++ [data]; closed := false |})
  /\ (ch ∈ listeners g -> 100 <= length (queue c) ->
      chans (fanout data g) !! ch = Some c)
  /\ (ch ∉ listeners g -> chans (fanout data g) !! ch = Some c)
  /\ fanout data g = set_listeners (listeners g) (chans (fanout data g)) g.
Proof.
  intros Hc Hopen. destruct (fanout_spec data g ch) as [Hl Hrest].
  split; [|split; [|split; [|exact Hrest]]].
  - intros Hin Hroom. rewrite Hl, decide_True, Hc by done. simpl.
    now rewrite trySend_room.
  - intros Hin Hfull. rewrite Hl, decide_True, Hc by done. simpl.
    now rewrite trySend_full.
  - intros Hout. now rewrite Hl, decide_False.
Qed.

(** X17.  The deferred function of [streamHandler], from any state of the
    package-level variables: it leaves no streamer attached, no listener
    registered, an empty ring buffer, a fresh [Once], a gate that has not
    fired and a new context that is not cancelled; the context that was
    current is cancelled, and every channel that was registered is
    closed with its pending chunks still in it. *)
Theorem X17_deferred_cleanup (g : Globals) :
  idle (endSession g)
  /\ (forall c, streamCancelFn g = Some c -> c < length (ctxs g) ->
        fired (ctxs (endSession g)) c = true)
  /\ (forall ch c, ch ∈ listeners g -> chans g !! ch = Some c ->
        chans (endSession g) !! ch
        = Some {| queue := queue c; closed := true |}).
Proof. exact (endSession_idle g). Qed.

End ServerAtLarge.

(** ** Sample runs for the properties above *)

Section MoreWitnesses.
Import Strings Server Invariants Scenario.
Local Open Scope nat_scope.
Local Open Scope string_scope.

(** The listener has joined the stream of the first streamer. *)
Lemma joined_registered :
  0 ∈ listeners (globals (Server.run DecodeString0 Authenticate0
                            (connect 0 ++ publish 0 ["X"%byte] ++ join 0)
                            (init [dj] 1))).
Proof. apply (bool_decide_unpack _). vm_compute. exact I. Qed.

(** Witness of X3: the channel of a listener that has joined. *)
Lemma X3_registered_channels_open_witness :
  exists c,
    chans (globals (Server.run DecodeString0 Authenticate0
                      (connect 0 ++ publish 0 ["X"%byte] ++ join 0)
                      (init [dj] 1))) !! 0 = Some c
    /\ closed c = false.
Proof.
  apply (X3_registered_channels_open DecodeString0 Authenticate0 [dj] 1
           (connect 0 ++ publish 0 ["X"%byte] ++ join 0) 0).
  exact joined_registered.
Defined.

(** Witness of X4: two chunks are pending. *)
Lemma X4_queues_bounded_witness :
  length [ {| sl_array := 0; sl_len := 1 |}; {| sl_array := 0; sl_len := 1 |} ]
  <= 100.
Proof.
  refine (X4_queues_bounded DecodeString0 Authenticate0 [dj] 1
           (connect 0 ++ publish 0 ["X"%byte] ++ join 0
            ++ publish 0 ["A"%byte] ++ publish 0 ["B"%byte]) 0
           {| queue := [ {| sl_array := 0; sl_len := 1 |};
                         {| sl_array := 0; sl_len := 1 |} ];
              closed := false |} _).
  vm_compute. reflexivity.
Defined.

(** Witness of X5: a registered empty channel gets the slice. *)
Lemma X5_fanout_per_channel_witness :
  let g := registered0 (resetStreamState zero) in
  let data := {| sl_array := 0; sl_len := 3 |} in
  chans (fanout data g) !! 0 = Some {| queue := [data]; closed := false |}.
Proof.
  intros g data.
  refine (proj1 (X5_fanout_per_channel data g 0 make_chan eq_refl eq_refl)
            _ _).
  - apply elem_of_union. left. now apply elem_of_singleton.
  - unfold make_chan. simpl. lia.
Defined.

(** Witness of X6: the registered channel 0 is that of listener 0. *)
Lemma X6_registered_channels_owned_witness :
  exists j l,
    listening (Server.run DecodeString0 Authenticate0
                 (connect 0 ++ publish 0 ["X"%byte] ++ join 0)
                 (init [dj] 1)) !! j = Some l
    /\ has_chan l = true /\ l_ch l = 0.
Proof.
  apply (proj1 (X6_registered_channels_owned DecodeString0 Authenticate0
                  [dj] 1 (connect 0 ++ publish 0 ["X"%byte] ++ join 0)) 0).
  exact joined_registered.
Defined.

(** Witness of X7: the listener came first, then the streamer. *)
Lemma X7_waiting_listener_turned_away_witness :
  let s := Server.run DecodeString0 Authenticate0
             [go 0; go 0; step 0; step 0] (init [dj] 1) in
  listening (Server.exec DecodeString0 Authenticate0 (stop 0)
               (Server.exec DecodeString0 Authenticate0 (step 0) s)) !! 0
  = Some (l_fail "No active stream" StatusServiceUnavailable
            (lis (L_wait 0) 0 0 [])).
Proof.
  intros s.
  refine (proj2 (X7_waiting_listener_turned_away DecodeString0 Authenticate0
                  [dj] 1 [go 0; go 0; step 0; step 0] 0 0 0
                  (mk dj S_begin []) (lis (L_wait 0) 0 0 []) [] false false
                  _ _ _ _ _)); vm_compute; reflexivity.
Defined.

(** Witness of X8: a session of two chunks and an empty last read. *)
Lemma X8_session_returns_to_idle_witness :
  idle (globals (Server.run DecodeString0 Authenticate0
                   (connect 0 ++ publishes 0 [["A"%byte]; ["B"%byte]]
                    ++ disconnect 0 []) (init [dj] 1))).
Proof.
  refine (proj1 (proj2 (X8_session_returns_to_idle DecodeString0 Authenticate0
                          dj authorized_dj [["A"%byte]; ["B"%byte]] [] _ _))).
  - repeat constructor.
  - simpl. lia.
Defined.

(** Witness of X17: the deferred function on the state of a session with
    one listener. *)
Lemma X17_deferred_cleanup_witness :
  let g := registered0 (resetStreamState zero) in
  chans (endSession g) !! 0 = Some {| queue := []; closed := true |}.
Proof.
  intros g.
  refine (proj2 (proj2 (X17_deferred_cleanup g)) 0 make_chan _ eq_refl).
  apply elem_of_union. left. now apply elem_of_singleton.
Defined.

(** Witness of X10: with a decoder that returns its input, the header
    ["Basic dj:pw:x"] gives the name [dj] and the secret [pw:x]. *)
Lemma X10_parseBasicAuth_exact_witness :
  parseBasicAuth (fun b64 => Some b64)
    {| Authorization := "Basic dj:pw:x"; XSourcePassword := "";
       QueryPassword := "" |}
  = ("dj", "pw:x", true).
Proof.
  refine (proj2 (proj1 (X10_parseBasicAuth_exact (fun b64 => Some b64)
                          {| Authorization := "Basic dj:pw:x";
                             XSourcePassword := ""; QueryPassword := "" |})
                   "dj" "pw:x") _).
  exists "dj:pw:x". split; [reflexivity|]. split; reflexivity.
Defined.

(** Witness of X11: a header without a colon hides the query value. *)
Lemma X11_credentials_precedence_witness :
  (credentials DecodeString0
     {| Authorization := ""; XSourcePassword := "hackme";
        QueryPassword := "dj:pw" |}).2 = false.
Proof.
  refine (proj2 (proj2 (X11_credentials_precedence DecodeString0
                         {| Authorization := ""; XSourcePassword := "hackme";
                            QueryPassword := "" |}))
           eq_refl _ eq_refl "dj:pw").
  discriminate.
Defined.

(** Witness of X12: the fallback value of the sample streamer. *)
Lemma X12_credentials_sound_witness :
  ContainsByte "dj" ":" = false.
Proof.
  exact (proj1 (X12_credentials_sound DecodeString0 dj "dj" "pw" eq_refl)).
Defined.

End MoreWitnesses.
